(** * arithmetique.py: elementary number theory routines (MIAC)

    A shallow embedding of [src/Python/arithmetique.py] and the proofs of
    its specification.  Python integers are unbounded, so they are [Z];
    [//] and [%] are floor division and its remainder, which are [Z.div]
    and [Z.modulo], except that a zero divisor raises.  A [while] loop is
    the [while] combinator below, run with a budget of iterations: the
    budget of each function is computed from its arguments, and the
    theorems show it is never exhausted on the function's domain. *)

From Stdlib Require Import ZArith Znumtheory Lia.
From stdpp Require Import gmap strings list sorting.

Local Open Scope Z_scope.

(** ** Outcomes of a call *)

Inductive exception :=
  | AssertionError (msg : string)
  | ZeroDivisionError
  | NameError (name : string)
  | ValueError.

(** A call returns a value, raises, or is still running when the budget of
    loop iterations is spent. *)
Inductive outcome (A : Type) :=
  | Val (v : A)
  | Raise (e : exception)
  | Timeout.
Arguments Val {A} v.
Arguments Raise {A} e.
Arguments Timeout {A}.

#[global] Instance outcome_ret : MRet outcome := λ A v, Val v.
#[global] Instance outcome_bind : MBind outcome := λ A B f m,
  match m with
  | Val v => f v
  | Raise e => Raise e
  | Timeout => Timeout
  end.

(** [while cond: body], at most [fuel] evaluations of [cond]. *)
Fixpoint while {St : Type} (fuel : nat) (cond : St → bool)
    (body : St → outcome St) (s : St) : outcome St :=
  match fuel with
  | O => Timeout
  | S fuel' =>
      if cond s then s' ← body s; while fuel' cond body s' else Val s
  end.

(** One turn of a loop, as a relation: [s'] follows [s]. *)
Definition loop_step {St : Type} (cond : St → bool)
    (body : St → outcome St) (s' s : St) : Prop :=
  cond s = true ∧ body s = Val s'.

(** Python's [divmod], [//] and [%] on integers. *)
Definition py_divmod (a b : Z) : outcome (Z * Z) :=
  if b =? 0 then Raise ZeroDivisionError else Val (a / b, a mod b).
Definition py_floordiv (a b : Z) : outcome Z :=
  if b =? 0 then Raise ZeroDivisionError else Val (a / b).
Definition py_mod (a b : Z) : outcome Z :=
  if b =? 0 then Raise ZeroDivisionError else Val (a mod b).

(** ** mon_divmod *)

Definition mon_divmod_cond (b : Z) (s : Z * Z) : bool :=
  let '(q, r) := s in r >=? b.
Definition mon_divmod_body (b : Z) (s : Z * Z) : outcome (Z * Z) :=
  let '(q, r) := s in Val (q + 1, r - b).
Definition mon_divmod (a b : Z) : outcome (Z * Z) :=
  while (S (Z.to_nat a)) (mon_divmod_cond b) (mon_divmod_body b) (0, a).

(** ** pgcd *)

Definition pgcd_cond (s : Z * Z) : bool :=
  let '(a1, b1) := s in negb (b1 =? 0).
Definition pgcd_body (s : Z * Z) : outcome (Z * Z) :=
  let '(a1, b1) := s in
  r ← py_mod a1 b1; Val (b1, r).
Definition pgcd (a b : Z) : outcome Z :=
  '(a1, b1) ← while (S (Z.to_nat (Z.abs b))) pgcd_cond pgcd_body
                 (Z.abs a, Z.abs b);
  Val (Z.abs a1).

(** ** euclide_etendu *)

Record euclide_state := EuclideState {
  r0 : Z; r1 : Z; u0 : Z; u1 : Z; v0 : Z; v1 : Z }.

Definition euclide_cond (s : euclide_state) : bool := negb (r1 s =? 0).
Definition euclide_body (s : euclide_state) : outcome euclide_state :=
  '(q, r) ← py_divmod (r0 s) (r1 s);
  Val (EuclideState (r1 s) r (u1 s) (u0 s - q * u1 s)
                    (v1 s) (v0 s - q * v1 s)).
Definition euclide_etendu (a b : Z) : outcome (Z * Z * Z) :=
  s ← while (S (Z.to_nat (Z.abs b))) euclide_cond euclide_body
        (EuclideState a b 1 0 0 1);
  if r0 s <? 0 then Val (- r0 s, - u0 s, - v0 s)
  else Val (r0 s, u0 s, v0 s).

(** ** inverse_mod *)

Definition inverse_mod (a n : Z) : outcome Z :=
  if n =? 0 then Raise (AssertionError "n ne doit pas être nul") else
  '(d, u, v) ← euclide_etendu a n;
  if d =? 1 then py_mod u n
  else Raise (AssertionError "a non inversible modulo n").

(** ** resoud_equation *)

(** The returned tuple: [()] or [((x0, y0), (alpha, beta))]. *)
Inductive solutions :=
  | Vide
  | Famille (xy0 : Z * Z) (ab : Z * Z).

Definition resoud_equation (a b c : Z) : outcome solutions :=
  d ← pgcd a b;
  '(c1, r) ← py_divmod c d;
  if negb (r =? 0) then Val Vide
  else
    a1 ← py_floordiv a d;
    b1 ← py_floordiv b d;
    '(_, u, v) ← euclide_etendu a1 b1;
    Val (Famille (c1 * u, c1 * v) (- b1, a1)).

(** ** eratosthene *)

(** The inner loop: strike out the multiples [mp] of [p] up to [n]. *)
Definition barrer_cond (n : Z) (s : Z * gset Z) : bool :=
  let '(mp, barres) := s in mp <=? n.
Definition barrer_body (p : Z) (s : Z * gset Z) : outcome (Z * gset Z) :=
  let '(mp, barres) := s in Val (mp + p, {[mp]} ∪ barres).

Definition crible_cond (n : Z) (s : Z * list Z * gset Z) : bool :=
  let '(p, premiers, barres) := s in p * p <=? n.
Definition crible_body (n : Z) (s : Z * list Z * gset Z)
    : outcome (Z * list Z * gset Z) :=
  let '(p, premiers, barres) := s in
  if bool_decide (p ∉ barres) then
    '(_, barres') ← while (S (Z.to_nat n)) (barrer_cond n) (barrer_body p)
                      (p + p, barres);
    Val (p + 1, premiers ++ [p], barres')
  else Val (p + 1, premiers, barres).

(** [for k in range(p, n + 1): if k not in barres: premiers.append(k)] *)
Definition restants (barres : gset Z) (premiers : list Z) (ks : list Z)
    : list Z :=
  foldl (λ acc k, if bool_decide (k ∉ barres) then acc ++ [k] else acc)
        premiers ks.

Definition eratosthene (n : Z) : outcome (list Z) :=
  '(p, premiers, barres) ← while (S (Z.to_nat n)) (crible_cond n)
                             (crible_body n) (2, [], ∅);
  Val (restants barres premiers (seqZ p (n + 1 - p))).

Definition est_premier1 (n : Z) : outcome bool :=
  l ← eratosthene n; Val (bool_decide (n ∈ l)).

(** ** factorise *)

Record factorise_state := FactoriseState {
  f_m : Z; f_p : Z; f_alpha : Z; f_facteurs : list (Z * Z) }.

(** [if alpha != 0: facteurs.append((p, alpha))] *)
Definition flush (p alpha : Z) (facteurs : list (Z * Z)) : list (Z * Z) :=
  if negb (alpha =? 0) then facteurs ++ [(p, alpha)] else facteurs.

Definition factorise_cond (s : factorise_state) : bool :=
  negb (f_m s =? 1).
Definition factorise_body (s : factorise_state) : outcome factorise_state :=
  r ← py_mod (f_m s) (f_p s);
  if r =? 0 then
    m' ← py_floordiv (f_m s) (f_p s);
    Val (FactoriseState m' (f_p s) (f_alpha s + 1) (f_facteurs s))
  else
    Val (FactoriseState (f_m s) (f_p s + 1) 0
           (flush (f_p s) (f_alpha s) (f_facteurs s))).
Definition factorise_init (n : Z) : factorise_state :=
  FactoriseState n 2 0 [].
Definition factorise (n : Z) : outcome (list (Z * Z)) :=
  s ← while (S (2 * Z.to_nat n)) factorise_cond factorise_body
        (factorise_init n);
  Val (flush (f_p s) (f_alpha s) (f_facteurs s)).

(** ** plus_petit_diviseur, est_premier2 *)

(** [d * d <= n and n % d != 0]; [d] starts at 2 and only grows, so the
    remainder never has a zero divisor. *)
Definition ppd_cond (n d : Z) : bool :=
  (d * d <=? n) && negb (n mod d =? 0).
Definition ppd_body (d : Z) : outcome Z := Val (d + 1).
Definition plus_petit_diviseur (n : Z) : outcome Z :=
  d ← while (S (Z.to_nat n)) (ppd_cond n) ppd_body 2;
  if d * d <=? n then Val d else Val n.

Definition est_premier2 (n : Z) : outcome bool :=
  d ← plus_petit_diviseur n; Val (d =? n).

(** ** expo_mod_rapide *)

Definition expo_cond (s : Z * Z * Z) : bool :=
  let '(r, s, k) := s in negb (k =? 0).
Definition expo_body (n : Z) (st : Z * Z * Z) : outcome (Z * Z * Z) :=
  let '(r, s, k) := st in
  r' ← (if k mod 2 =? 1 then py_mod (r * s) n else Val r);
  s' ← py_mod (s * s) n;
  Val (r', s', k / 2).
Definition expo_mod_rapide (a b n : Z) : outcome Z :=
  '(r, _, _) ← while (Z.to_nat (Z.log2 b) + 2) expo_cond (expo_body n)
                 (1, a, b);
  Val r.

(** ** est_temoin_non_primalite *)

Definition est_temoin_non_primalite (a n : Z) : outcome bool :=
  d ← pgcd a n;
  if d =? 1 then
    e ← expo_mod_rapide a (n - 1) n; Val (negb (e =? 1))
  else Val false.

(** ** est_premier_probable_fermat *)

(** The names bound in the module's global scope once it is loaded: one
    per [def].  The file has no [import] statement apart from
    [import doctest] under the [__main__] guard. *)
Definition module_globals : list string :=
  ["mon_divmod"; "pgcd"; "euclide_etendu"; "inverse_mod"; "resoud_equation";
   "eratosthene"; "est_premier1"; "factorise"; "plus_petit_diviseur1";
   "plus_petit_diviseur"; "est_premier2"; "expo_mod_rapide";
   "est_temoin_non_primalite"; "est_premier_probable_fermat";
   "est_carmichael"].

(** Evaluating a global name: [obj] is the object the name would denote. *)
Definition load_global {A : Type} (name : string) (obj : A) : outcome A :=
  if bool_decide (name ∈ module_globals) then Val obj
  else Raise (NameError name).

(** [random.randrange(start, stop)] with the draws injected: the [k]-th
    call returns [tirages k]; an empty range raises. *)
Definition randrange (tirages : nat → Z) (k : nat) (start stop : Z)
    : outcome Z :=
  if stop <=? start then Raise ValueError else Val (tirages k).

(** [any(est_temoin_non_primalite(randrange(2, n-1), n) for k in ...)],
    where [rr k] is the evaluation of the name [randrange] at turn [k]. *)
Fixpoint any_temoin (rr : nat → outcome (Z → Z → outcome Z)) (n : Z)
    (ks : list nat) : outcome bool :=
  match ks with
  | [] => Val false
  | k :: ks' =>
      f ← rr k;
      a ← f 2 (n - 1);
      t ← est_temoin_non_primalite a n;
      if (t : bool) then Val true else any_temoin rr n ks'
  end.

Definition est_premier_probable_fermat_avec
    (rr : nat → outcome (Z → Z → outcome Z)) (n nbtentatives : Z)
    : outcome bool :=
  t ← any_temoin rr n (seq 0 (Z.to_nat nbtentatives)); Val (negb t).

(** The function as the module defines it: [randrange] is looked up in
    the module's globals (it is no builtin either).  The default value 20
    of [nbtentatives] is the caller's to pass. *)
Definition est_premier_probable_fermat (tirages : nat → Z)
    (n nbtentatives : Z) : outcome bool :=
  est_premier_probable_fermat_avec
    (λ k, load_global "randrange" (randrange tirages k)) n nbtentatives.

(** The same body run where [randrange] is bound to the injected source. *)
Definition est_premier_probable_fermat_injecte (tirages : nat → Z)
    (n nbtentatives : Z) : outcome bool :=
  est_premier_probable_fermat_avec
    (λ k, Val (randrange tirages k)) n nbtentatives.

(** ** plus_petit_diviseur1 *)

(** [n % d != 0]; as above [d] is never zero. *)
Definition ppd1_cond (n d : Z) : bool := negb (n mod d =? 0).
Definition plus_petit_diviseur1 (n : Z) : outcome Z :=
  while (S (Z.to_nat (Z.abs n))) (ppd1_cond n) ppd_body 2.

(** ** est_carmichael *)

(** [all((n - 1) % (fact[i][0] - 1) == 0 for i in range(r))] *)
Fixpoint all_korselt (n : Z) (fact : list (Z * Z)) : outcome bool :=
  match fact with
  | [] => Val true
  | pa :: fact' =>
      r ← py_mod (n - 1) (pa.1 - 1);
      if r =? 0 then all_korselt n fact' else Val false
  end.

Definition est_carmichael (n : Z) : outcome bool :=
  fact ← factorise n;
  let r := Z.of_nat (length fact) in
  if (1 <? r) && forallb (λ pa, pa.2 =? 1) fact then all_korselt n fact
  else Val false.

(** ** Specification vocabulary *)

(** An integer at least 2 with no divisor other than 1 and itself. *)
Definition premier (p : Z) : Prop :=
  2 ≤ p ∧ ∀ d, 0 < d → (d | p) → d = 1 ∨ d = p.

(** Product of [p ^ alpha] over a factor list. *)
Definition produit (l : list (Z * Z)) : Z :=
  foldr (λ pa acc, pa.1 ^ pa.2 * acc) 1 l.

(** [a] is a Fermat witness of the compositeness of [n]. *)
Definition temoin_fermat (a n : Z) : Prop :=
  Z.gcd a n = 1 ∧ a ^ (n - 1) mod n ≠ 1.

(** ** Loop invariants and variants *)

#[global] Instance temoin_fermat_dec (a n : Z) : Decision (temoin_fermat a n).
Proof. unfold temoin_fermat. apply _. Defined.

(** Both remainders are combinations of [a] and [b], and their gcd is
    that of [a] and [b]. *)
Definition euclide_inv (a b : Z) (s : euclide_state) : Prop :=
  a * u0 s + b * v0 s = r0 s ∧ a * u1 s + b * v1 s = r1 s
  ∧ Z.gcd (r0 s) (r1 s) = Z.gcd a b.

(** The invariant stated in the source, [a^b % n = r*s^k % n], and the
    fact that [r] is reduced once the last bit of the exponent is used. *)
Definition expo_inv (a b n : Z) (st : Z * Z * Z) : Prop :=
  let '(r, s, k) := st in
  0 ≤ k ∧ (r * s ^ k) mod n = a ^ b mod n
  ∧ (k = 0 → 0 < b → 0 ≤ r < n).

(** The number of bits of [k]. *)
Definition expo_mu (st : Z * Z * Z) : Z := Z.log2 (2 * st.2).

(** [mp] is a multiple of [p], and the multiples below it are struck. *)
Definition barrer_inv (n p : Z) (barres : gset Z) (s : Z * gset Z) : Prop :=
  (p | s.1) ∧ 2 * p ≤ s.1 ≤ n + p
  ∧ ∀ m, m ∈ s.2 ↔ m ∈ barres ∨ ((p | m) ∧ 2 * p ≤ m < s.1).

(** The struck numbers, once every candidate below [p] has been handled:
    the proper multiples, up to [n], of the primes below [p]. *)
Definition barres_until (n p : Z) (barres : gset Z) : Prop :=
  ∀ m, m ∈ barres ↔ ∃ q, premier q ∧ q < p ∧ (q | m) ∧ 2 * q ≤ m ≤ n.

(** [premiers] lists in ascending order the primes below [p]. *)
Definition crible_inv (n : Z) (s : Z * list Z * gset Z) : Prop :=
  let '(p, premiers, barres) := s in
  2 ≤ p ∧ (p - 1) * (p - 1) ≤ n ∧ barres_until n p barres
  ∧ StronglySorted Z.lt premiers
  ∧ ∀ x, x ∈ premiers ↔ 2 ≤ x < p ∧ premier x.

(** No candidate below [d] divides [n]. *)
Definition ppd_inv (n d : Z) : Prop :=
  2 ≤ d ∧ ∀ e, 2 ≤ e < d → ¬ (e | n).

(** A well-formed factor list whose primes are below [bound]. *)
Definition facteurs_ok (bound : Z) (l : list (Z * Z)) : Prop :=
  StronglySorted (λ x y, x.1 < y.1) l
  ∧ Forall (λ pa, premier pa.1 ∧ 1 ≤ pa.2 ∧ pa.1 < bound) l.

(** [n] is the product of the flushed factors, of [p^alpha] and of what
    is left, [m], which has no divisor below [p]. *)
Definition factorise_inv (n : Z) (s : factorise_state) : Prop :=
  1 ≤ f_m s ∧ 2 ≤ f_p s ∧ 0 ≤ f_alpha s
  ∧ n = produit (f_facteurs s) * f_p s ^ f_alpha s * f_m s
  ∧ (∀ e, 2 ≤ e < f_p s → ¬ (e | f_m s))
  ∧ (0 < f_alpha s → premier (f_p s))
  ∧ facteurs_ok (f_p s) (f_facteurs s).

(** Lowered by a division ([m] at least halves) and by a step of [p]. *)
Definition factorise_mu (s : factorise_state) : Z := 2 * f_m s - f_p s.

(** * Proofs *)

(** ** Loop rules *)

Section WhileRules.
Context {St : Type} (cond : St → bool) (body : St → outcome St).
Context (Inv : St → Prop) (mu : St → Z).
Hypothesis step : ∀ s, Inv s → cond s = true →
  ∃ s', body s = Val s' ∧ Inv s' ∧ mu s' < mu s ∧ 0 < mu s.

Lemma while_total (fuel : nat) (s : St) :
  Inv s → mu s < Z.of_nat fuel → (0 < fuel)%nat →
  ∃ s', while fuel cond body s = Val s' ∧ Inv s' ∧ cond s' = false.
Proof.
  revert s. induction fuel as [|fuel IH]; intros s Hs Hmu Hf; [lia|].
  simpl. destruct (cond s) eqn:Hc.
  - destruct (step s Hs Hc) as (s' & -> & Hs' & Hlt & Hpos).
    simpl. apply IH; auto; lia.
  - exists s. auto.
Qed.

Lemma while_Acc (s : St) : Inv s → Acc (loop_step cond body) s.
Proof.
  assert (H : ∀ (k : nat) s, Inv s → mu s < Z.of_nat k →
              Acc (loop_step cond body) s).
  { induction k as [|k IH]; intros t Ht Hk; constructor;
      intros t' [Hc Hb];
      destruct (step t Ht Hc) as (t'' & Hb' & Ht'' & Hlt & Hpos);
      [lia|].
    rewrite Hb in Hb'. injection Hb' as <-. apply IH; auto; lia. }
  intros Hs. apply (H (S (Z.to_nat (mu s)))); auto. lia.
Qed.
End WhileRules.

Lemma while_diverges {St : Type} (cond : St → bool) (body : St → outcome St)
    (J : St → Prop) :
  (∀ s, J s → cond s = true ∧ ∃ s', body s = Val s' ∧ J s') →
  ∀ fuel s, J s → while fuel cond body s = Timeout.
Proof.
  intros HJ. induction fuel as [|fuel IH]; intros s Hs; [reflexivity|].
  simpl. destruct (HJ s Hs) as (-> & s' & -> & Hs'). simpl. auto.
Qed.

Lemma py_mod_val (a b : Z) : b ≠ 0 → py_mod a b = Val (a mod b).
Proof. intros H. unfold py_mod. destruct (Z.eqb_spec b 0); [lia|done]. Qed.
Lemma py_floordiv_val (a b : Z) : b ≠ 0 → py_floordiv a b = Val (a / b).
Proof. intros H. unfold py_floordiv. destruct (Z.eqb_spec b 0); [lia|done]. Qed.
Lemma py_divmod_val (a b : Z) :
  b ≠ 0 → py_divmod a b = Val (a / b, a mod b).
Proof. intros H. unfold py_divmod. destruct (Z.eqb_spec b 0); [lia|done]. Qed.

(** ** The worked examples of the docstrings *)

Example mon_divmod_10_3 : mon_divmod 10 3 = Val (3, 1).
Proof. reflexivity. Qed.
Example pgcd_m42_m26 : pgcd (-42) (-26) = Val 2.
Proof. reflexivity. Qed.
Example inverse_mod_3_7 : inverse_mod 3 7 = Val 5.
Proof. reflexivity. Qed.
Example inverse_mod_3_26 : inverse_mod 3 26 = Val 9.
Proof. reflexivity. Qed.
Example resoud_equation_4_6_5 : resoud_equation 4 6 5 = Val Vide.
Proof. reflexivity. Qed.
Example eratosthene_40 :
  eratosthene 40 = Val [2; 3; 5; 7; 11; 13; 17; 19; 23; 29; 31; 37].
Proof. vm_compute. reflexivity. Qed.
Example factorise_504 : factorise 504 = Val [(2, 3); (3, 2); (7, 1)].
Proof. vm_compute. reflexivity. Qed.
Example plus_petit_diviseur_9927 : plus_petit_diviseur 9927 = Val 3.
Proof. vm_compute. reflexivity. Qed.
Example expo_mod_rapide_2_10_100 : expo_mod_rapide 2 10 100 = Val 24.
Proof. vm_compute. reflexivity. Qed.
Example expo_mod_rapide_14_3141_17 : expo_mod_rapide 14 3141 17 = Val 12.
Proof. vm_compute. reflexivity. Qed.
Example est_temoin_561 :
  est_temoin_non_primalite 2 561 = Val false
  ∧ est_temoin_non_primalite 2 91 = Val true.
Proof. vm_compute. done. Qed.

(** ** mon_divmod *)

Lemma mon_divmod_spec (a b : Z) :
  0 ≤ a → 0 < b →
  ∃ q r, mon_divmod a b = Val (q, r) ∧ a = b * q + r ∧ 0 ≤ r < b.
Proof.
  intros Ha Hb. unfold mon_divmod.
  destruct (while_total (mon_divmod_cond b) (mon_divmod_body b)
              (λ s, a = b * s.1 + s.2 ∧ 0 ≤ s.2) (λ s, s.2))
    with (fuel := S (Z.to_nat a)) (s := (0, a))
    as ([q r] & -> & [Heq Hr] & Hc); simpl in *.
  - intros [q r] [Heq Hr] Hc; simpl in *.
    destruct (Z.geb_spec r b); [|done].
    eexists; split; [done|]. simpl. lia.
  - lia.
  - lia.
  - lia.
  - exists q, r. destruct (Z.geb_spec r b); [done|]. split; [done|lia].
Qed.

(** ** pgcd and euclide_etendu *)

Lemma pgcd_spec (a b : Z) : pgcd a b = Val (Z.gcd a b).
Proof.
  unfold pgcd.
  destruct (while_total pgcd_cond pgcd_body
              (λ s, 0 ≤ s.2 ∧ Z.gcd s.1 s.2 = Z.gcd a b) (λ s, s.2))
    with (fuel := S (Z.to_nat (Z.abs b))) (s := (Z.abs a, Z.abs b))
    as ([a1 b1] & -> & [Hb Hg] & Hc); simpl in *.
  - intros [a1 b1] [Hb Hg] Hc; simpl in *.
    apply negb_true_iff, Z.eqb_neq in Hc.
    rewrite py_mod_val by done. simpl. eexists; split; [done|]. simpl.
    pose proof (Z.mod_pos_bound a1 b1). repeat split; try lia.
    rewrite Z.gcd_comm, Z.gcd_mod by done. by rewrite Z.gcd_comm.
  - split; [lia|]. by rewrite Z.gcd_abs_l, Z.gcd_abs_r.
  - lia.
  - lia.
  - apply negb_false_iff, Z.eqb_eq in Hc. subst b1.
    rewrite Z.gcd_0_r in Hg. by rewrite Hg.
Qed.

Lemma euclide_step (a b : Z) (s : euclide_state) :
  euclide_inv a b s → euclide_cond s = true →
  ∃ s', euclide_body s = Val s' ∧ euclide_inv a b s'
        ∧ Z.abs (r1 s') < Z.abs (r1 s) ∧ 0 < Z.abs (r1 s).
Proof.
  intros (H0 & H1 & Hg) Hc. unfold euclide_cond in Hc.
  apply negb_true_iff, Z.eqb_neq in Hc.
  unfold euclide_body. rewrite py_divmod_val by done. simpl.
  eexists; split; [done|]. unfold euclide_inv; simpl.
  pose proof (Z.mod_eq (r0 s) (r1 s) Hc) as Hm.
  repeat split.
  - done.
  - rewrite Hm, <- H0, <- H1. ring.
  - rewrite Z.gcd_comm, Z.gcd_mod by done. by rewrite Z.gcd_comm.
  - destruct (Z_lt_le_dec 0 (r1 s)).
    + pose proof (Z.mod_pos_bound (r0 s) (r1 s)). lia.
    + pose proof (Z.mod_neg_bound (r0 s) (r1 s)). lia.
  - lia.
Qed.

Lemma euclide_etendu_spec (a b : Z) :
  ∃ u v, euclide_etendu a b = Val (Z.gcd a b, u, v)
         ∧ Z.gcd a b = a * u + b * v.
Proof.
  unfold euclide_etendu.
  destruct (while_total euclide_cond euclide_body (euclide_inv a b)
              (λ s, Z.abs (r1 s)) (euclide_step a b)
              (S (Z.to_nat (Z.abs b))) (EuclideState a b 1 0 0 1))
    as (s & -> & (H0 & H1 & Hg) & Hc); simpl.
  - unfold euclide_inv; simpl. repeat split; lia.
  - lia.
  - lia.
  - unfold euclide_cond in Hc. apply negb_false_iff, Z.eqb_eq in Hc.
    rewrite Hc, Z.gcd_0_r in Hg.
    destruct (Z.ltb_spec (r0 s) 0).
    + exists (- u0 s), (- v0 s). split; [f_equal; f_equal; f_equal|]; lia.
    + exists (u0 s), (v0 s). split; [f_equal; f_equal; f_equal|]; lia.
Qed.

(** C1: for (a, b) other than (0, 0), of any signs, [euclide_etendu a b]
    returns a triple (d, u, v) where d is the value [pgcd a b] returns,
    which is the greatest common divisor, d = a*u + b*v and d >= 0. *)
Theorem euclide_etendu_bezout (a b : Z) :
  (a, b) ≠ (0, 0) →
  ∃ d u v, euclide_etendu a b = Val (d, u, v) ∧ pgcd a b = Val d
           ∧ d = Z.gcd a b ∧ d = a * u + b * v ∧ 0 ≤ d.
Proof.
  intros _. destruct (euclide_etendu_spec a b) as (u & v & He & Hb).
  exists (Z.gcd a b), u, v. rewrite pgcd_spec.
  repeat split; auto. apply Z.gcd_nonneg.
Qed.

Lemma euclide_etendu_bezout_witness :
  ∃ d u v, euclide_etendu (-42) 26 = Val (d, u, v) ∧ pgcd (-42) 26 = Val d
           ∧ d = Z.gcd (-42) 26 ∧ d = -42 * u + 26 * v ∧ 0 ≤ d.
Proof. apply (euclide_etendu_bezout (-42) 26). discriminate. Defined.

(** ** inverse_mod *)

Lemma inverse_mod_coprime (a n : Z) :
  n ≠ 0 → Z.gcd a n = 1 →
  ∃ u0, inverse_mod a n = Val (u0 mod n) ∧ (a * (u0 mod n)) mod n = 1 mod n.
Proof.
  intros Hn Hg. unfold inverse_mod.
  destruct (Z.eqb_spec n 0) as [|_]; [done|].
  destruct (euclide_etendu_spec a n) as (u & v & -> & Hb). simpl.
  rewrite Hg in *. simpl. rewrite py_mod_val by done.
  exists u. split; [done|].
  rewrite Z.mul_mod_idemp_r by done.
  replace (a * u) with (1 + (- v) * n) by lia.
  by rewrite Z.mod_add.
Qed.

(** C4, as the code has it: for n other than 0, when gcd(a, n) = 1
    [inverse_mod a n] returns u with (a*u) mod n = 1 mod n, where u lies in
    [0, n) for a positive n and in (n, 0] for a negative n (the remainder
    takes the sign of the modulus); when gcd(a, n) is not 1 the call
    raises the assertion error "a non inversible modulo n". *)
Theorem inverse_mod_spec (a n : Z) :
  n ≠ 0 →
  (Z.gcd a n = 1 →
     ∃ u, inverse_mod a n = Val u ∧ (a * u) mod n = 1 mod n
          ∧ (0 < n → 0 ≤ u < n) ∧ (n < 0 → n < u ≤ 0))
  ∧ (Z.gcd a n ≠ 1 →
     inverse_mod a n = Raise (AssertionError "a non inversible modulo n")).
Proof.
  intros Hn. split; intros Hg.
  - destruct (inverse_mod_coprime a n Hn Hg) as (u & -> & Hu).
    eexists; repeat split; try done.
    + apply Z.mod_pos_bound; lia.
    + apply Z.mod_pos_bound; lia.
    + apply Z.mod_neg_bound; lia.
    + apply Z.mod_neg_bound; lia.
  - unfold inverse_mod. destruct (Z.eqb_spec n 0) as [|_]; [done|].
    destruct (euclide_etendu_spec a n) as (u & v & -> & Hb). simpl.
    by destruct (Z.eqb_spec (Z.gcd a n) 1).
Qed.

Lemma inverse_mod_spec_witness :
  (Z.gcd 3 26 = 1 →
     ∃ u, inverse_mod 3 26 = Val u ∧ (3 * u) mod 26 = 1 mod 26
          ∧ (0 < 26 → 0 ≤ u < 26) ∧ (26 < 0 → 26 < u ≤ 0))
  ∧ (Z.gcd 3 26 ≠ 1 →
     inverse_mod 3 26 = Raise (AssertionError "a non inversible modulo n")).
Proof. apply (inverse_mod_spec 3 26). lia. Defined.

(** The range [0, |n|) of C4 fails for a negative modulus:
    [inverse_mod 3 (-7)] is -2. *)
Lemma inverse_mod_negative_modulus :
  ¬ (-7 ≠ 0 → Z.gcd 3 (-7) = 1 →
     ∃ u, inverse_mod 3 (-7) = Val u ∧ 0 ≤ u < Z.abs (-7)
          ∧ (3 * u) mod (-7) = 1 mod (-7)).
Proof.
  intros H. destruct H as (u & Hu & Hr & _); [lia|reflexivity|].
  vm_compute in Hu. injection Hu as <-. lia.
Qed.

(** ** resoud_equation *)

(** C5: for (a, b) other than (0, 0): when gcd(a, b) does not divide c,
    [resoud_equation a b c] returns the empty tuple; otherwise it returns
    ((x0, y0), (alpha, beta)) where every integer k gives a solution
    (x0 + alpha*k, y0 + beta*k) of a*x + b*y = c, and every solution has
    that form. *)
Theorem resoud_equation_spec (a b c : Z) :
  (a, b) ≠ (0, 0) →
  (¬ (Z.gcd a b | c) → resoud_equation a b c = Val Vide)
  ∧ ((Z.gcd a b | c) →
     ∃ x0 y0 alpha beta,
       resoud_equation a b c = Val (Famille (x0, y0) (alpha, beta))
       ∧ (∀ k, a * (x0 + alpha * k) + b * (y0 + beta * k) = c)
       ∧ (∀ x y, a * x + b * y = c →
                 ∃ k, x = x0 + alpha * k ∧ y = y0 + beta * k)).
Proof.
  intros Hab.
  assert (Hd : Z.gcd a b ≠ 0).
  { intros H0. apply Z.gcd_eq_0 in H0 as [-> ->]. done. }
  unfold resoud_equation. rewrite pgcd_spec. simpl.
  rewrite py_divmod_val by done. simpl.
  split; intros Hc.
  - destruct (Z.eqb_spec (c mod Z.gcd a b) 0) as [H0|]; [|done].
    apply Z.mod_divide in H0; done.
  - assert (H0 : c mod Z.gcd a b = 0) by by apply Z.mod_divide.
    rewrite H0. simpl.
    rewrite !py_floordiv_val by done. simpl.
    set (d := Z.gcd a b) in *.
    destruct (euclide_etendu_spec (a / d) (b / d)) as (u & v & -> & Hb).
    simpl. rewrite Z.gcd_div_gcd in Hb by done.
    assert (Ha1 : a = d * (a / d)).
    { apply Z_div_exact_full_2; [done|]. apply Z.mod_divide; [done|].
      apply Z.gcd_divide_l. }
    assert (Hb1 : b = d * (b / d)).
    { apply Z_div_exact_full_2; [done|]. apply Z.mod_divide; [done|].
      apply Z.gcd_divide_r. }
    assert (Hc1 : c = d * (c / d)) by by apply Z_div_exact_full_2.
    set (a1 := a / d) in *. set (b1 := b / d) in *. set (c1 := c / d) in *.
    exists (c1 * u), (c1 * v), (- b1), a1. split; [done|]. split.
    + intros k. rewrite Ha1 at 1. rewrite Hb1 at 1.
      transitivity (d * c1 * (a1 * u + b1 * v)); [ring|].
      rewrite <- Hb. lia.
    + intros x y Hxy.
      assert (Hz : a1 * (x - c1 * u) + b1 * (y - c1 * v) = 0).
      { apply (Z.mul_reg_l _ _ d); [done|].
        transitivity (d * a1 * x + d * b1 * y - d * c1 * (a1 * u + b1 * v));
          [ring|].
        rewrite <- Hb, <- Ha1, <- Hb1. lia. }
      set (X := x - c1 * u) in *. set (Y := y - c1 * v) in *.
      exists (u * Y - v * X). split.
      * transitivity (c1 * u + X * (a1 * u + b1 * v)
                      - u * (a1 * X + b1 * Y)); [|ring].
        rewrite <- Hb, Hz. unfold X. ring.
      * transitivity (c1 * v + Y * (a1 * u + b1 * v)
                      - v * (a1 * X + b1 * Y)); [|ring].
        rewrite <- Hb, Hz. unfold Y. ring.
Qed.

Lemma resoud_equation_spec_witness :
  (¬ (Z.gcd 4 6 | 10) → resoud_equation 4 6 10 = Val Vide)
  ∧ ((Z.gcd 4 6 | 10) →
     ∃ x0 y0 alpha beta,
       resoud_equation 4 6 10 = Val (Famille (x0, y0) (alpha, beta))
       ∧ (∀ k, 4 * (x0 + alpha * k) + 6 * (y0 + beta * k) = 10)
       ∧ (∀ x y, 4 * x + 6 * y = 10 →
                 ∃ k, x = x0 + alpha * k ∧ y = y0 + beta * k)).
Proof. apply (resoud_equation_spec 4 6 10). discriminate. Defined.

(** ** Calls outside the documented conditions of use *)

Lemma mon_divmod_below (a b : Z) : a < b → mon_divmod a b = Val (0, a).
Proof.
  intros H. unfold mon_divmod. simpl.
  destruct (Z.geb_spec a b); [lia|done].
Qed.

Lemma mon_divmod_loops (a b : Z) (fuel : nat) :
  b ≤ 0 → b ≤ a →
  while fuel (mon_divmod_cond b) (mon_divmod_body b) (0, a) = Timeout.
Proof.
  intros Hb Ha.
  apply (while_diverges _ _ (λ s, b ≤ s.2)); [|simpl; lia].
  intros [q r] Hr; simpl in *. split.
  - destruct (Z.geb_spec r b); [done|lia].
  - eexists; split; [done|]. simpl. lia.
Qed.

(** The claim C8 fails on [pgcd 0 0], which returns 0. *)
Lemma pgcd_0_0_no_error : ¬ (∃ e, pgcd 0 0 = Raise e).
Proof. intros [e He]. vm_compute in He. discriminate. Qed.

(** C8, as the code has it: the conditions of use are not checked, except
    by [inverse_mod], whose assertion rejects n = 0.  [pgcd 0 0] returns
    0 and [euclide_etendu 0 0] returns (0, 1, 0); [mon_divmod a b] with
    b <= 0 returns (0, a) when a < b, and its loop never exits when
    b <= a. *)
Theorem unchecked_preconditions :
  pgcd 0 0 = Val 0
  ∧ euclide_etendu 0 0 = Val (0, 1, 0)
  ∧ (∀ a b, b ≤ 0 → a < b → mon_divmod a b = Val (0, a))
  ∧ (∀ a b fuel, b ≤ 0 → b ≤ a →
       while fuel (mon_divmod_cond b) (mon_divmod_body b) (0, a) = Timeout)
  ∧ (∀ a, inverse_mod a 0 = Raise (AssertionError "n ne doit pas être nul")).
Proof.
  split; [reflexivity|]. split; [reflexivity|].
  split; [intros a b _; apply mon_divmod_below|].
  split; [intros a b fuel; apply mon_divmod_loops|].
  reflexivity.
Qed.

Lemma unchecked_preconditions_witness :
  mon_divmod (-5) (-3) = Val (0, -5)
  ∧ while 100 (mon_divmod_cond 0) (mon_divmod_body 0) (0, 7) = Timeout.
Proof.
  destruct unchecked_preconditions as (_ & _ & H1 & H2 & _).
  split; [apply (H1 (-5) (-3)); lia | apply (H2 7 0 100%nat); lia].
Defined.

(** ** expo_mod_rapide *)

Lemma pow_halve (s k : Z) :
  0 ≤ k → s ^ k = (s * s) ^ (k / 2) * s ^ (k mod 2).
Proof.
  intros Hk. pose proof (Z.mod_pos_bound k 2 ltac:(lia)).
  assert (0 ≤ k / 2) by (apply Z.div_pos; lia).
  rewrite (Z.div_mod k 2) at 1 by lia.
  rewrite Z.pow_add_r, Z.pow_twice_r, Z.pow_mul_l by lia. done.
Qed.

Lemma expo_step (a b n : Z) (st : Z * Z * Z) :
  0 < n → expo_inv a b n st → expo_cond st = true →
  ∃ st', expo_body n st = Val st' ∧ expo_inv a b n st'
         ∧ expo_mu st' < expo_mu st ∧ 0 < expo_mu st.
Proof.
  intros Hn. destruct st as [[r s] k]. intros (Hk & Hinv & _) Hc.
  unfold expo_cond in Hc. apply negb_true_iff, Z.eqb_neq in Hc.
  assert (Hk2 : 0 ≤ k / 2) by (apply Z.div_pos; lia).
  pose proof (Z.mod_pos_bound k 2 ltac:(lia)) as Hm.
  pose proof (Z.div_mod k 2 ltac:(lia)) as Hdm.
  unfold expo_body. rewrite !py_mod_val by lia.
  exists (if k mod 2 =? 1 then (r * s) mod n else r, (s * s) mod n, k / 2).
  split.
  { destruct (k mod 2 =? 1); simpl; reflexivity. }
  unfold expo_inv, expo_mu; simpl.
  split; [split; [done|]; split|split].
  - rewrite <- Hinv, (pow_halve s k Hk).
    rewrite <- Z.mul_mod_idemp_r, Z.mod_pow_l, Z.mul_mod_idemp_r by lia.
    destruct (Z.eqb_spec (k mod 2) 1) as [->|Hodd].
    + rewrite Z.mul_mod_idemp_l by lia. f_equal. ring.
    + replace (k mod 2) with 0 by lia. f_equal. ring.
  - intros Hz _. assert (k = 1) as -> by lia. simpl.
    apply Z.mod_pos_bound; lia.
  - rewrite (Z.log2_double k) by lia.
    pose proof (Z.log2_le_mono (2 * (k / 2)) k ltac:(lia)). lia.
  - rewrite (Z.log2_double k) by lia. pose proof (Z.log2_nonneg k). lia.
Qed.

(** On its domain the result is congruent to a^b modulo n, and it is
    reduced as soon as the loop runs once. *)
Lemma expo_mod_rapide_congr (a b n : Z) :
  0 ≤ b → 0 < n →
  ∃ r, expo_mod_rapide a b n = Val r ∧ r mod n = a ^ b mod n
       ∧ (0 < b → 0 ≤ r < n).
Proof.
  intros Hb Hn. unfold expo_mod_rapide.
  destruct (while_total expo_cond (expo_body n) (expo_inv a b n) expo_mu
              (λ st, expo_step a b n st Hn)
              (Z.to_nat (Z.log2 b) + 2) (1, a, b))
    as ([[r s] k] & -> & (Hk & Hinv & Hr) & Hc).
  - unfold expo_inv. repeat split; try lia. f_equal. lia.
  - unfold expo_mu; simpl. destruct (Z.eq_dec b 0) as [->|]; [simpl; lia|].
    rewrite Z.log2_double by lia. pose proof (Z.log2_nonneg b). lia.
  - lia.
  - unfold expo_cond in Hc. apply negb_false_iff, Z.eqb_eq in Hc. subst k.
    simpl. exists r. split; [done|]. split; [|auto].
    rewrite <- Hinv. f_equal. lia.
Qed.

Lemma expo_mod_rapide_spec (a b n : Z) :
  0 ≤ b → 0 < n → 0 < b ∨ 1 < n →
  expo_mod_rapide a b n = Val (a ^ b mod n).
Proof.
  intros Hb Hn Hor.
  destruct (Z.eq_dec b 0) as [->|Hb0].
  - rewrite Z.pow_0_r, Z.mod_1_l by lia. reflexivity.
  - destruct (expo_mod_rapide_congr a b n Hb Hn) as (r & -> & Hr & Hrange).
    rewrite <- Hr, Z.mod_small; [done|]. apply Hrange. lia.
Qed.

(** C3 at its failing input: with b = 0 and n = 1 the loop does not run
    and the initial r = 1 is returned, while a^0 mod 1 is 0. *)
Theorem expo_mod_rapide_b0_n1 (a : Z) :
  expo_mod_rapide a 0 1 = Val 1 ∧ a ^ 0 mod 1 = 0
  ∧ expo_mod_rapide a 0 1 ≠ Val (a ^ 0 mod 1).
Proof. repeat split. discriminate. Qed.

(** ** est_temoin_non_primalite and est_premier_probable_fermat *)

Lemma est_temoin_non_primalite_spec (a n : Z) :
  1 < n →
  est_temoin_non_primalite a n = Val (bool_decide (temoin_fermat a n)).
Proof.
  intros Hn. unfold est_temoin_non_primalite, temoin_fermat.
  rewrite pgcd_spec. simpl.
  destruct (Z.eqb_spec (Z.gcd a n) 1) as [Hg|Hg].
  - rewrite expo_mod_rapide_spec by lia. simpl. f_equal.
    destruct (Z.eqb_spec (a ^ (n - 1) mod n) 1) as [He|He]; simpl.
    + symmetry. apply bool_decide_eq_false. tauto.
    + symmetry. apply bool_decide_eq_true. tauto.
  - f_equal. symmetry. apply bool_decide_eq_false. tauto.
Qed.

Lemma randrange_unbound : "randrange" ∉ module_globals.
Proof. apply (bool_decide_unpack _). vm_compute. exact I. Qed.

Lemma any_temoin_injecte (tirages : nat → Z) (n : Z) (ks : list nat) :
  4 ≤ n →
  any_temoin (λ k, Val (randrange tirages k)) n ks
  = Val (bool_decide (Exists (λ k, temoin_fermat (tirages k) n) ks)).
Proof.
  intros Hn. induction ks as [|k ks IH].
  - reflexivity.
  - cbn [any_temoin mbind outcome_bind].
    assert (randrange tirages k 2 (n - 1) = Val (tirages k)) as ->.
    { unfold randrange. destruct (Z.leb_spec (n - 1) 2); [lia|done]. }
    cbn [mbind outcome_bind].
    rewrite est_temoin_non_primalite_spec by lia.
    cbn [mbind outcome_bind].
    destruct (decide (temoin_fermat (tirages k) n)) as [Ht|Ht].
    + rewrite bool_decide_eq_true_2 by done. f_equal. symmetry.
      apply bool_decide_eq_true. by constructor.
    + rewrite bool_decide_eq_false_2 by done. rewrite IH. f_equal.
      apply bool_decide_ext. rewrite Exists_cons. tauto.
Qed.

(** Where [randrange] is bound to a source of draws, the test on n >= 4
    returns false exactly when one of the bases drawn is a Fermat witness;
    the bases count only through their values, whatever their range. *)
Lemma est_premier_probable_fermat_injecte_spec (tirages : nat → Z)
    (n nbtentatives : Z) :
  4 ≤ n →
  ∃ res, est_premier_probable_fermat_injecte tirages n nbtentatives = Val res
    ∧ (res = false ↔
       ∃ k, (k < Z.to_nat nbtentatives)%nat ∧ temoin_fermat (tirages k) n).
Proof.
  intros Hn.
  unfold est_premier_probable_fermat_injecte,
    est_premier_probable_fermat_avec.
  rewrite any_temoin_injecte by done. simpl. eexists; split; [done|].
  rewrite negb_false_iff, bool_decide_eq_true, Exists_exists.
  split; intros (k & H1 & H2); exists k; split; auto.
  - apply elem_of_seq in H1. lia.
  - apply elem_of_seq. lia.
Qed.

(** For n = 3 the range [2, n-2] is empty and the draw itself raises. *)
Lemma est_premier_probable_fermat_injecte_3 (tirages : nat → Z)
    (nbtentatives : Z) :
  1 ≤ nbtentatives →
  est_premier_probable_fermat_injecte tirages 3 nbtentatives
  = Raise ValueError.
Proof.
  intros Hnb.
  unfold est_premier_probable_fermat_injecte,
    est_premier_probable_fermat_avec.
  destruct (Z.to_nat nbtentatives) as [|k] eqn:Hk; [lia|]. reflexivity.
Qed.

(** C2 on the code as it is: the module never binds [randrange], so with
    at least one attempt the first turn of the generator raises
    NameError; no boolean is returned, whatever n and the draws. *)
Theorem est_premier_probable_fermat_NameError (tirages : nat → Z)
    (n nbtentatives : Z) :
  1 ≤ nbtentatives →
  est_premier_probable_fermat tirages n nbtentatives
  = Raise (NameError "randrange").
Proof.
  intros Hnb.
  unfold est_premier_probable_fermat, est_premier_probable_fermat_avec.
  destruct (Z.to_nat nbtentatives) as [|k] eqn:Hk; [lia|].
  cbn [seq any_temoin]. unfold load_global.
  by rewrite bool_decide_eq_false_2 by apply randrange_unbound.
Qed.

Lemma est_premier_probable_fermat_NameError_witness :
  est_premier_probable_fermat (λ _, 2) 5 20 = Raise (NameError "randrange").
Proof. apply (est_premier_probable_fermat_NameError (λ _, 2) 5 20). lia. Defined.

Lemma est_premier_probable_fermat_no_attempt (tirages : nat → Z) (n nb : Z) :
  nb ≤ 0 → est_premier_probable_fermat tirages n nb = Val true.
Proof.
  intros Hnb.
  unfold est_premier_probable_fermat, est_premier_probable_fermat_avec.
  replace (Z.to_nat nb) with 0%nat by lia. reflexivity.
Qed.

(** ** Primes *)

Lemma premier_sans_diviseur (p : Z) :
  premier p ↔ 2 ≤ p ∧ ∀ d, 2 ≤ d < p → ¬ (d | p).
Proof.
  split; intros [Hp H]; split; try done.
  - intros d Hd Hdiv. destruct (H d) as [?|?]; [lia|done|lia|lia].
  - intros d Hd Hdiv.
    assert (d ≤ p) by (apply Z.divide_pos_le; [lia|done]).
    destruct (Z.eq_dec d 1); [by left|]. destruct (Z.eq_dec d p); [by right|].
    destruct (H d); [lia|done].
Qed.

Lemma premier_iff_prime (p : Z) : premier p ↔ prime p.
Proof.
  rewrite <- prime_alt, premier_sans_diviseur. unfold Z.prime.
  split; intros [Hp H]; (split; [lia|]); intros d Hd; apply H; lia.
Qed.

Lemma premier_dec (p : Z) : {premier p} + {¬ premier p}.
Proof.
  destruct (prime_dec p) as [H|H]; [left|right];
    by rewrite premier_iff_prime.
Qed.

Lemma diviseur_propre (m : Z) :
  2 ≤ m → ¬ premier m → ∃ d e, 2 ≤ d ∧ 2 ≤ e ∧ m = e * d.
Proof.
  intros Hm Hnp. rewrite premier_iff_prime in Hnp.
  destruct (not_prime_divide m) as (d & Hd & [e He]); [lia|done|].
  exists d, e. repeat split; [lia| |done]. nia.
Qed.

Lemma diviseur_premier (m : Z) : 2 ≤ m → ∃ q, premier q ∧ (q | m).
Proof.
  intros Hm. assert (H0 : 0 ≤ m) by lia. revert Hm.
  pattern m. apply Z_lt_induction; [|done]. clear m H0.
  intros m IH Hm. destruct (premier_dec m) as [Hp|Hnp].
  - exists m. split; [done|]. apply Z.divide_refl.
  - destruct (diviseur_propre m Hm Hnp) as (d & e & Hd & He & ->).
    destruct (IH d) as (q & Hq & Hqd); [nia|lia|].
    exists q. split; [done|]. by apply Z.divide_mul_r.
Qed.

(** A composite number has a prime divisor below its square root. *)
Lemma petit_diviseur_premier (m : Z) :
  2 ≤ m → ¬ premier m → ∃ q, premier q ∧ (q | m) ∧ q * q ≤ m.
Proof.
  intros Hm Hnp. destruct (diviseur_propre m Hm Hnp) as (d & e & Hd & He & ->).
  destruct (Z_le_gt_dec d e).
  - destruct (diviseur_premier d Hd) as (q & Hq & Hqd).
    exists q. split; [done|]. split; [by apply Z.divide_mul_r|].
    assert (q ≤ d) by (apply Z.divide_pos_le; [lia|done]).
    destruct Hq as [Hq _]. nia.
  - destruct (diviseur_premier e He) as (q & Hq & Hqe).
    exists q. split; [done|]. split; [by apply Z.divide_mul_l|].
    assert (q ≤ e) by (apply Z.divide_pos_le; [lia|done]).
    destruct Hq as [Hq _]. nia.
Qed.

(** ** eratosthene *)

Lemma barrer_step (n p : Z) (barres : gset Z) (s : Z * gset Z) :
  2 ≤ p → barrer_inv n p barres s → barrer_cond n s = true →
  ∃ s', barrer_body p s = Val s' ∧ barrer_inv n p barres s'
        ∧ n + 1 - s'.1 < n + 1 - s.1 ∧ 0 < n + 1 - s.1.
Proof.
  intros Hp. destruct s as [mp bs]. intros (Hdiv & Hmp & Hbs) Hc.
  simpl in *. apply Z.leb_le in Hc.
  eexists; split; [done|]. unfold barrer_inv; simpl.
  split; [split; [|split; [lia|]]|lia].
  - apply Z.divide_add_r; [done|apply Z.divide_refl].
  - intros m. rewrite elem_of_union, elem_of_singleton, Hbs.
    split.
    + intros [->|[?|(? & ?)]]; [right; split; [done|lia]|by left|].
      right. split; [done|lia].
    + intros [?|(Hpm & Hm)]; [tauto|].
      destruct (Z.eq_dec m mp); [by left|]. right. right. split; [done|].
      destruct Hpm as [x ->]. destruct Hdiv as [y ->].
      assert (x < y + 1) by nia. assert (x ≠ y) by congruence. nia.
Qed.

Lemma barrer_spec (n p : Z) (barres : gset Z) :
  2 ≤ p ≤ n →
  ∃ mp barres',
    while (S (Z.to_nat n)) (barrer_cond n) (barrer_body p) (p + p, barres)
    = Val (mp, barres')
    ∧ ∀ m, m ∈ barres' ↔ m ∈ barres ∨ ((p | m) ∧ 2 * p ≤ m ≤ n).
Proof.
  intros Hp.
  destruct (while_total (barrer_cond n) (barrer_body p)
              (barrer_inv n p barres) (λ s, n + 1 - s.1)
              (λ s, barrer_step n p barres s ltac:(lia))
              (S (Z.to_nat n)) (p + p, barres))
    as ([mp bs] & Hw & (Hdiv & Hmp & Hbs) & Hc); simpl in *.
  - unfold barrer_inv; simpl. split; [|split; [lia|]].
    + apply Z.divide_add_r; apply Z.divide_refl.
    + intros m. split; [tauto|]. intros [?|(_ & ?)]; [done|lia].
  - lia.
  - lia.
  - exists mp, bs. split; [done|]. apply Z.leb_gt in Hc.
    intros m. rewrite Hbs. split; (intros [?|(Hpm & Hm)]; [by left|right]).
    + split; [done|]. destruct Hpm as [x ->]. destruct Hdiv as [y ->].
      assert (x < y) by nia. nia.
    + split; [done|lia].
Qed.

Lemma barre_iff (n p : Z) (barres : gset Z) (m : Z) :
  barres_until n p barres → 2 ≤ p → p ≤ m ≤ n → m < p * p →
  m ∈ barres ↔ ¬ premier m.
Proof.
  intros Hb Hp Hm Hpp. rewrite (Hb m). split.
  - intros (q & [Hq _] & _ & Hqm & Hq2) [_ Hprem].
    destruct (Hprem q) as [?|?]; [lia|done|lia|lia].
  - intros Hnp.
    destruct (petit_diviseur_premier m ltac:(lia) Hnp) as (q & Hq & Hqm & Hqq).
    exists q. pose proof Hq as [Hq2 _].
    split; [done|]. split; [nia|]. split; [done|].
    destruct Hqm as [e ->]. nia.
Qed.

Lemma crible_step (n : Z) (s : Z * list Z * gset Z) :
  crible_inv n s → crible_cond n s = true →
  ∃ s', crible_body n s = Val s' ∧ crible_inv n s'
        ∧ n + 1 - s'.1.1 < n + 1 - s.1.1 ∧ 0 < n + 1 - s.1.1.
Proof.
  destruct s as [[p premiers] barres].
  intros (Hp & Hsq & Hb & Hsort & Hmem) Hc. simpl in Hc.
  apply Z.leb_le in Hc. assert (Hpn : p ≤ n) by nia.
  pose proof (barre_iff n p barres p Hb Hp ltac:(lia) ltac:(nia)) as Hiff.
  unfold crible_body. destruct (decide (p ∉ barres)) as [Hnb|Hin].
  - rewrite bool_decide_eq_true_2 by done.
    assert (Hprem : premier p).
    { destruct (premier_dec p) as [|Hnp]; [done|]. by apply Hiff in Hnp. }
    destruct (barrer_spec n p barres ltac:(lia)) as (mp & b' & -> & Hb').
    simpl. eexists; split; [done|]. simpl.
    split; [|lia]. split; [lia|]. split; [nia|]. split; [|split].
    + intros m. rewrite Hb', (Hb m). split.
      * intros [(q & ? & ? & ? & ?)|(? & ?)].
        -- exists q. split; [done|]. split; [lia|]. split; [done|lia].
        -- exists p. split; [done|]. split; [lia|]. split; [done|lia].
      * intros (q & Hq & Hlt & Hqm & Hr).
        destruct (Z.eq_dec q p) as [->|]; [by right|].
        left. exists q. split; [done|]. split; [lia|]. split; [done|lia].
    + apply StronglySorted_app_2; [|done|repeat constructor].
      intros x1 x2 H1 H2. apply Hmem in H1. apply list_elem_of_singleton in H2.
      lia.
    + intros x. rewrite elem_of_app, list_elem_of_singleton, Hmem. split.
      * intros [(? & ?)| -> ]; (split; [lia|done]).
      * intros (Hx & Hpx). destruct (Z.eq_dec x p); [by right|].
        left. split; [lia|done].
  - rewrite bool_decide_eq_false_2 by done.
    assert (Hnp : ¬ premier p).
    { apply Hiff. destruct (decide (p ∈ barres)); tauto. }
    eexists; split; [done|]. simpl.
    split; [|lia]. split; [lia|]. split; [nia|]. split; [|split; [done|]].
    + intros m. rewrite (Hb m). split.
      * intros (q & ? & ? & ? & ?). exists q. split; [done|]. split; [lia|]. split; [done|lia].
      * intros (q & Hq & Hlt & Hqm & Hr).
        destruct (Z.eq_dec q p) as [->|]; [done|].
        exists q. split; [done|]. split; [lia|]. split; [done|lia].
    + intros x. rewrite Hmem. split.
      * intros (? & ?). split; [lia|done].
      * intros (Hx & Hpx). destruct (Z.eq_dec x p) as [->|]; [done|].
        split; [lia|done].
Qed.

Lemma restants_spec (barres : gset Z) (ks premiers : list Z) :
  restants barres premiers ks = premiers ++ filter (λ k, k ∉ barres) ks.
Proof.
  unfold restants. revert premiers.
  induction ks as [|k ks IH]; intros premiers; simpl.
  - by rewrite app_nil_r.
  - rewrite IH, filter_cons. destruct (decide (k ∉ barres)).
    + rewrite bool_decide_eq_true_2 by done. by rewrite <- app_assoc.
    + by rewrite bool_decide_eq_false_2 by done.
Qed.

Lemma StronglySorted_seqZ (len : nat) (m : Z) :
  StronglySorted Z.lt (seqZ m (Z.of_nat len)).
Proof.
  revert m. induction len as [|len IH]; intros m.
  - constructor.
  - rewrite seqZ_cons by lia.
    replace (Z.pred (Z.of_nat (S len))) with (Z.of_nat len) by lia.
    constructor; [apply IH|]. apply Forall_seqZ. lia.
Qed.

Lemma StronglySorted_filter_lt (P : Z → Prop) `{∀ x, Decision (P x)}
    (l : list Z) :
  StronglySorted Z.lt l → StronglySorted Z.lt (filter P l).
Proof.
  induction 1 as [|x l Hl IH Hx]; [constructor|].
  rewrite filter_cons. destruct (decide (P x)); [|done].
  constructor; [done|]. rewrite Forall_forall in *.
  intros y Hy. apply Hx. by apply list_elem_of_filter in Hy as [_ Hy].
Qed.

Lemma StronglySorted_lt_NoDup (l : list Z) : StronglySorted Z.lt l → NoDup l.
Proof.
  induction 1 as [|x l Hl IH Hx]; constructor; [|done].
  intros Hin. rewrite Forall_forall in Hx. specialize (Hx x Hin). lia.
Qed.

Lemma eratosthene_primes (n : Z) :
  2 ≤ n →
  ∃ l, eratosthene n = Val l ∧ StronglySorted Z.lt l ∧ NoDup l
       ∧ ∀ x, x ∈ l ↔ 2 ≤ x ≤ n ∧ premier x.
Proof.
  intros Hn. unfold eratosthene.
  destruct (while_total (crible_cond n) (crible_body n) (crible_inv n)
              (λ s, n + 1 - s.1.1) (crible_step n)
              (S (Z.to_nat n)) (2, [], ∅))
    as ([[p premiers] barres] & -> & (Hp & Hsq & Hb & Hsort & Hmem) & Hc).
  - simpl. split; [lia|]. split; [lia|]. split; [|split; [constructor|]].
    + intros m. split; [set_solver|].
      intros (q & [Hq _] & ? & _). lia.
    + intros x. split; [by intros ?%elem_of_nil|lia].
  - simpl. lia.
  - lia.
  - simpl in Hc. apply Z.leb_gt in Hc. simpl.
    rewrite restants_spec.
    assert (Hpn : p ≤ n + 1) by nia.
    assert (Hs : StronglySorted Z.lt
                   (premiers ++ filter (λ k, k ∉ barres) (seqZ p (n + 1 - p)))).
    { apply StronglySorted_app_2; [|done|].
      - intros x1 x2 H1 H2. apply Hmem in H1.
        apply list_elem_of_filter in H2 as [_ H2]. apply elem_of_seqZ in H2. lia.
      - apply StronglySorted_filter_lt.
        replace (n + 1 - p) with (Z.of_nat (Z.to_nat (n + 1 - p))) by lia.
        apply StronglySorted_seqZ. }
    eexists; split; [done|]. split; [done|].
    split; [by apply StronglySorted_lt_NoDup|].
    intros x. rewrite elem_of_app, list_elem_of_filter, elem_of_seqZ, Hmem.
    split.
    + intros [(? & ?)|(Hnb & Hx)]; (split; [lia|]); [done|].
      destruct (premier_dec x) as [|Hnp]; [done|].
      apply (barre_iff n p barres x Hb Hp ltac:(lia) ltac:(lia)) in Hnp. done.
    + intros (Hx & Hpx). destruct (Z_lt_le_dec x p); [left; split; [lia|done]|].
      right. split; [|lia]. intros Hin.
      by apply (barre_iff n p barres x Hb Hp ltac:(lia) ltac:(lia)) in Hin.
Qed.

(** C6: for n >= 2, [eratosthene n] returns a strictly ascending list,
    without duplicates, whose members are exactly the primes of [2, n]. *)
Theorem eratosthene_spec (n : Z) :
  2 ≤ n →
  ∃ l, eratosthene n = Val l ∧ StronglySorted Z.lt l ∧ NoDup l
       ∧ ∀ x, x ∈ l ↔ 2 ≤ x ≤ n ∧ premier x.
Proof. apply eratosthene_primes. Qed.

Lemma eratosthene_spec_witness :
  ∃ l, eratosthene 40 = Val l ∧ StronglySorted Z.lt l ∧ NoDup l
       ∧ ∀ x, x ∈ l ↔ 2 ≤ x ≤ 40 ∧ premier x.
Proof. apply (eratosthene_spec 40). lia. Defined.

(** ** plus_petit_diviseur, est_premier1, est_premier2 *)

Lemma ppd_step (n d : Z) :
  ppd_inv n d → ppd_cond n d = true →
  ∃ d', ppd_body d = Val d' ∧ ppd_inv n d'
        ∧ n + 1 - d' < n + 1 - d ∧ 0 < n + 1 - d.
Proof.
  intros [Hd Hno] Hc. unfold ppd_cond in Hc.
  apply andb_true_iff in Hc as [Hsq Hmod].
  apply Z.leb_le in Hsq. apply negb_true_iff, Z.eqb_neq in Hmod.
  eexists; split; [done|]. split; [split; [lia|]|nia].
  intros e He Hdiv. destruct (Z.eq_dec e d) as [->|]; [|apply (Hno e); [lia|done]].
  apply Hmod. apply Z.mod_divide; [lia|done].
Qed.

(** For n >= 2 the value returned is the least divisor of n above 1. *)
Lemma plus_petit_diviseur_spec (n : Z) :
  2 ≤ n →
  ∃ d, plus_petit_diviseur n = Val d ∧ 2 ≤ d ∧ (d | n)
       ∧ (∀ e, 2 ≤ e → (e | n) → d ≤ e)
       ∧ (d = n ↔ premier n).
Proof.
  intros Hn. unfold plus_petit_diviseur.
  destruct (while_total (ppd_cond n) ppd_body (ppd_inv n)
              (λ d, n + 1 - d) (ppd_step n) (S (Z.to_nat n)) 2)
    as (d & -> & [Hd Hno] & Hc).
  - split; [lia|]. intros e He. lia.
  - lia.
  - lia.
  - simpl. unfold ppd_cond in Hc. apply andb_false_iff in Hc.
    destruct (Z.leb_spec (d * d) n) as [Hsq|Hsq].
    + destruct Hc as [Hc|Hc]; [done|].
      apply negb_false_iff, Z.eqb_eq in Hc.
      apply Z.mod_divide in Hc; [|lia].
      exists d. split; [done|]. split; [done|]. split; [done|]. split.
      * intros e He Hdiv. destruct (Z_lt_le_dec e d); [|done].
        destruct (Hno e); [lia|done].
      * split; [nia|]. intros [_ Hprem].
        destruct (Hprem d) as [?|?]; [lia|done|lia|done].
    + assert (Hprem : premier n).
      { destruct (premier_dec n) as [|Hnp]; [done|].
        destruct (petit_diviseur_premier n Hn Hnp) as (q & [Hq _] & Hqn & Hqq).
        destruct (Hno q); [nia|done]. }
      exists n. split; [done|]. split; [lia|]. split; [apply Z.divide_refl|].
      split; [|done]. intros e He Hdiv.
      destruct Hprem as [_ Hprem]. destruct (Hprem e); [lia|done|lia|lia].
Qed.

(** C9: for n >= 2 the two primality tests return the same boolean, which
    is true exactly when n is prime. *)
Theorem est_premier1_est_premier2 (n : Z) :
  2 ≤ n →
  ∃ b, est_premier1 n = Val b ∧ est_premier2 n = Val b
       ∧ (b = true ↔ premier n).
Proof.
  intros Hn. unfold est_premier1, est_premier2.
  destruct (eratosthene_primes n Hn) as (l & -> & _ & _ & Hl).
  destruct (plus_petit_diviseur_spec n Hn) as (d & -> & _ & _ & _ & Hd).
  simpl. destruct (premier_dec n) as [Hp|Hnp].
  - exists true. split; [|split; [|done]]; f_equal.
    + apply bool_decide_eq_true. apply Hl. split; [lia|done].
    + apply Z.eqb_eq. by apply Hd.
  - exists false. split; [|split]; [f_equal..|split; [done|tauto]].
    + apply bool_decide_eq_false. rewrite Hl. tauto.
    + apply Z.eqb_neq. rewrite Hd. done.
Qed.

Lemma est_premier1_est_premier2_witness :
  ∃ b, est_premier1 9 = Val b ∧ est_premier2 9 = Val b
       ∧ (b = true ↔ premier 9).
Proof. apply (est_premier1_est_premier2 9). lia. Defined.

(** ** factorise *)

Lemma produit_snoc (l : list (Z * Z)) (p alpha : Z) :
  produit (l ++ [(p, alpha)]) = produit l * p ^ alpha.
Proof.
  unfold produit. induction l as [|[q a] l IH]; simpl in *; [lia|].
  rewrite IH. ring.
Qed.

Lemma flush_ok (p alpha : Z) (facteurs : list (Z * Z)) :
  facteurs_ok p facteurs → 0 ≤ alpha → (0 < alpha → premier p) →
  facteurs_ok (p + 1) (flush p alpha facteurs)
  ∧ produit (flush p alpha facteurs) = produit facteurs * p ^ alpha.
Proof.
  intros [Hs Hf] Ha Hp. unfold flush.
  assert (Hf' : Forall (λ pa : Z * Z, premier pa.1 ∧ 1 ≤ pa.2 ∧ pa.1 < p + 1)
                  facteurs).
  { eapply Forall_impl; [exact Hf|]. simpl. intros pa (? & ? & ?).
    split; [done|]. split; [done|lia]. }
  destruct (Z.eqb_spec alpha 0) as [->|Hne]; simpl.
  - split; [by split|]. rewrite Z.pow_0_r. lia.
  - split; [split|apply produit_snoc].
    + apply StronglySorted_app_2; [|done|repeat constructor].
      intros x1 x2 H1 H2. apply list_elem_of_singleton in H2 as ->. simpl.
      rewrite Forall_forall in Hf. by destruct (Hf x1 H1) as (_ & _ & ?).
    + apply Forall_app. split; [done|]. constructor; [|constructor]. simpl.
      split; [apply Hp; lia|lia].
Qed.

Lemma factorise_step (n : Z) (s : factorise_state) :
  factorise_inv n s → factorise_cond s = true →
  ∃ s', factorise_body s = Val s' ∧ factorise_inv n s'
        ∧ factorise_mu s' < factorise_mu s ∧ 0 < factorise_mu s.
Proof.
  destruct s as [m p alpha facteurs]. unfold factorise_inv, factorise_mu.
  simpl. intros (Hm & Hp & Ha & Hn & Hno & Hprem & Hok) Hc.
  unfold factorise_cond in Hc. simpl in Hc.
  apply negb_true_iff, Z.eqb_neq in Hc.
  assert (Hpm : p ≤ m).
  { destruct (Z_le_gt_dec p m); [done|].
    destruct (Hno m); [lia|apply Z.divide_refl]. }
  unfold factorise_body; simpl. rewrite py_mod_val by lia. simpl.
  destruct (Z.eqb_spec (m mod p) 0) as [Hmod|Hmod].
  - rewrite py_floordiv_val by lia. simpl. eexists; split; [done|]. simpl.
    apply Z.mod_divide in Hmod as Hdiv; [|lia].
    assert (Hmp : m = p * (m / p)) by (apply Z_div_exact_full_2; lia).
    assert (1 ≤ m / p) by nia.
    split; [|nia]. split; [done|]. split; [done|]. split; [lia|].
    split; [|split; [|split; [|done]]].
    + rewrite Z.pow_add_r, Z.pow_1_r by lia. rewrite Hn, Hmp at 1. ring.
    + intros e He Hem. apply (Hno e He).
      rewrite Hmp. by apply Z.divide_mul_r.
    + intros _. apply premier_sans_diviseur. split; [done|].
      intros d Hd Hdp. apply (Hno d Hd). by etrans.
  - eexists; split; [done|]. simpl.
    assert (p ≠ m) by (intros ->; apply Hmod, Z.mod_same; lia).
    destruct (flush_ok p alpha facteurs Hok Ha Hprem) as [Hok' Hprod].
    split; [|lia]. split; [done|]. split; [lia|]. split; [done|].
    split; [|split; [|split; [lia|done]]].
    + rewrite Hprod, Z.pow_0_r. lia.
    + intros e He Hem. destruct (Z.eq_dec e p) as [->|].
      * apply Hmod. apply Z.mod_divide; [lia|done].
      * apply (Hno e); [lia|done].
Qed.

Lemma factorise_loop_total (n : Z) (fuel : nat) :
  1 ≤ n → (2 * Z.to_nat n < fuel)%nat →
  ∃ s, while fuel factorise_cond factorise_body (factorise_init n) = Val s
       ∧ factorise_inv n s ∧ f_m s = 1.
Proof.
  intros Hn Hfuel.
  destruct (while_total factorise_cond factorise_body (factorise_inv n)
              factorise_mu (factorise_step n) fuel (factorise_init n))
    as (s & Hw & Hinv & Hc).
  - unfold factorise_inv, factorise_init; simpl.
    split; [done|]. split; [done|]. split; [done|]. split; [lia|].
    split; [intros e He; lia|]. split; [lia|]. split; constructor.
  - unfold factorise_mu; simpl. lia.
  - lia.
  - exists s. split; [done|]. split; [done|].
    unfold factorise_cond in Hc. by apply negb_false_iff, Z.eqb_eq in Hc.
Qed.

(** C7: for n >= 1, [factorise n] returns a list of pairs (p, alpha) with
    every p prime, the primes strictly ascending, every alpha >= 1 and
    the product of the p^alpha equal to n; for n = 1 the list is empty. *)
Theorem factorise_spec (n : Z) :
  1 ≤ n →
  ∃ l, factorise n = Val l
       ∧ Forall (λ pa, premier pa.1 ∧ 1 ≤ pa.2) l
       ∧ StronglySorted (λ x y, x.1 < y.1) l
       ∧ produit l = n
       ∧ (n = 1 → l = []).
Proof.
  intros Hn. unfold factorise.
  destruct (factorise_loop_total n (S (2 * Z.to_nat n)) Hn ltac:(lia))
    as (s & Hw & (Hm & Hp & Ha & Hprod & Hno & Hprem & Hok) & H1).
  pose proof Hw as Hw'. rewrite Hw. simpl.
  destruct (flush_ok _ _ _ Hok Ha Hprem) as [[Hs Hf] Hpr].
  eexists; split; [done|]. split; [|split; [done|split]].
  - eapply Forall_impl; [exact Hf|]. simpl. tauto.
  - rewrite Hpr. rewrite Hprod, H1. lia.
  - intros ->. vm_compute in Hw'. by injection Hw' as <-.
Qed.

Lemma factorise_spec_witness :
  ∃ l, factorise 504 = Val l
       ∧ Forall (λ pa, premier pa.1 ∧ 1 ≤ pa.2) l
       ∧ StronglySorted (λ x y, x.1 < y.1) l
       ∧ produit l = 504
       ∧ (504 = 1 → l = []).
Proof. apply (factorise_spec 504). lia. Defined.

(** C10: for n >= 1 the loop of [factorise] terminates.  Every turn
    taken from a state reached from (n, 2, 0, []) lowers 2*m - p, which
    stays positive while m is not 1: the successor relation of the loop
    is well founded from the initial state, every budget above 2*n lets
    the loop exit with m = 1, and [factorise n] returns a list. *)
Theorem factorise_terminates (n : Z) :
  1 ≤ n →
  Acc (loop_step factorise_cond factorise_body) (factorise_init n)
  ∧ (∀ fuel, (2 * Z.to_nat n < fuel)%nat →
       ∃ s, while fuel factorise_cond factorise_body (factorise_init n)
            = Val s ∧ f_m s = 1)
  ∧ ∃ l, factorise n = Val l.
Proof.
  intros Hn. split; [|split].
  - apply (while_Acc factorise_cond factorise_body (factorise_inv n)
             factorise_mu (factorise_step n)).
    unfold factorise_inv, factorise_init; simpl.
    split; [done|]. split; [done|]. split; [done|]. split; [lia|].
    split; [intros e He; lia|]. split; [lia|]. split; constructor.
  - intros fuel Hfuel.
    destruct (factorise_loop_total n fuel Hn Hfuel) as (s & Hw & _ & H1).
    by exists s.
  - unfold factorise.
    destruct (factorise_loop_total n (S (2 * Z.to_nat n)) Hn ltac:(lia))
      as (s & -> & _). simpl. by eexists.
Qed.

Lemma factorise_terminates_witness :
  Acc (loop_step factorise_cond factorise_body) (factorise_init 12)
  ∧ (∀ fuel, (2 * Z.to_nat 12 < fuel)%nat →
       ∃ s, while fuel factorise_cond factorise_body (factorise_init 12)
            = Val s ∧ f_m s = 1)
  ∧ ∃ l, factorise 12 = Val l.
Proof. apply (factorise_terminates 12). lia. Defined.

(** * Further properties of the module *)

(** ** mon_divmod and pgcd *)

(** X1: for a >= 0 and b > 0, [mon_divmod a b] returns the quotient and
    the remainder of the floor division, as Python's [divmod] does. *)
Theorem mon_divmod_is_divmod (a b : Z) :
  0 ≤ a → 0 < b → mon_divmod a b = Val (a / b, a mod b).
Proof.
  intros Ha Hb.
  destruct (mon_divmod_spec a b Ha Hb) as (q & r & -> & Heq & Hr).
  f_equal. f_equal.
  - by apply (Z.div_unique_pos a b q r).
  - by apply (Z.mod_unique_pos a b q r).
Qed.

Lemma mon_divmod_is_divmod_witness : mon_divmod 17 5 = Val (17 / 5, 17 mod 5).
Proof. apply (mon_divmod_is_divmod 17 5); lia. Defined.

(** X2: a negative dividend is returned untouched as the remainder, with
    quotient 0: the result then differs from [divmod], whose remainder is
    never negative for a positive divisor. *)
Theorem mon_divmod_negative_dividend (a b : Z) :
  a < 0 → 0 < b →
  mon_divmod a b = Val (0, a) ∧ (0, a) ≠ (a / b, a mod b).
Proof.
  intros Ha Hb. split; [apply mon_divmod_below; lia|].
  intros [= _ Hm]. pose proof (Z.mod_pos_bound a b Hb). lia.
Qed.

Lemma mon_divmod_negative_dividend_witness :
  mon_divmod (-7) 2 = Val (0, -7) ∧ (0, -7) ≠ (-7 / 2, -7 mod 2).
Proof. apply (mon_divmod_negative_dividend (-7) 2); lia. Defined.

(** X3: for all integers a and b, [pgcd a b] returns a non-negative
    common divisor of a and b that every common divisor divides. *)
Theorem pgcd_greatest_common_divisor (a b : Z) :
  ∃ d, pgcd a b = Val d ∧ 0 ≤ d ∧ (d | a) ∧ (d | b)
       ∧ ∀ e, (e | a) → (e | b) → (e | d).
Proof.
  exists (Z.gcd a b). split; [apply pgcd_spec|].
  split; [apply Z.gcd_nonneg|]. split; [apply Z.gcd_divide_l|].
  split; [apply Z.gcd_divide_r|]. intros e. apply Z.gcd_greatest.
Qed.

(** X4: [pgcd] does not depend on the signs or on the order of its
    arguments, and [pgcd 0 n] is the absolute value of n. *)
Theorem pgcd_signs (a b : Z) :
  pgcd (- a) b = pgcd a b ∧ pgcd a (- b) = pgcd a b
  ∧ pgcd b a = pgcd a b ∧ pgcd 0 b = Val (Z.abs b).
Proof.
  rewrite !pgcd_spec, Z.gcd_opp_l, Z.gcd_opp_r, (Z.gcd_comm b a), Z.gcd_0_l.
  done.
Qed.

(** ** inverse_mod *)

Lemma inverse_unique (n a x y : Z) :
  n ≠ 0 → (a * x) mod n = 1 mod n → (a * y) mod n = 1 mod n →
  x mod n = y mod n.
Proof.
  intros Hn Hx Hy.
  transitivity ((x * (a * y)) mod n).
  - rewrite <- Z.mul_mod_idemp_r, Hy, Z.mul_mod_idemp_r by done.
    f_equal. lia.
  - replace (x * (a * y)) with (a * x * y) by ring.
    rewrite <- Z.mul_mod_idemp_l, Hx, Z.mul_mod_idemp_l by done.
    f_equal. lia.
Qed.

Lemma inverse_mod_not_coprime (a n : Z) :
  n ≠ 0 → Z.gcd a n ≠ 1 →
  inverse_mod a n = Raise (AssertionError "a non inversible modulo n").
Proof.
  intros Hn Hg. unfold inverse_mod.
  destruct (Z.eqb_spec n 0) as [|_]; [done|].
  destruct (euclide_etendu_spec a n) as (u & v & -> & Hb). simpl.
  by destruct (Z.eqb_spec (Z.gcd a n) 1).
Qed.

Lemma congru_1_coprime (u a n : Z) :
  n ≠ 0 → (u * a) mod n = 1 mod n → Z.gcd u n = 1.
Proof.
  intros Hn H. apply Z.bezout_1_gcd.
  exists a, (1 / n - (u * a) / n).
  pose proof (Z.div_mod (u * a) n Hn). pose proof (Z.div_mod 1 n Hn). nia.
Qed.

(** X5: the inverse of the inverse is the residue of a: for n other than
    0 and a invertible modulo n, [inverse_mod] applied to the value of
    [inverse_mod a n] returns a mod n. *)
Theorem inverse_mod_involutive (a n : Z) :
  n ≠ 0 → Z.gcd a n = 1 →
  ∃ u, inverse_mod a n = Val u ∧ inverse_mod u n = Val (a mod n).
Proof.
  intros Hn Hg.
  destruct (inverse_mod_coprime a n Hn Hg) as (u0 & Hu & Hau).
  exists (u0 mod n). split; [done|].
  assert (Hua : (u0 mod n * a) mod n = 1 mod n).
  { by rewrite Z.mul_comm. }
  pose proof (congru_1_coprime _ _ _ Hn Hua) as Hgu.
  destruct (inverse_mod_coprime (u0 mod n) n Hn Hgu) as (w0 & -> & Hw).
  f_equal. rewrite <- (Z.mod_mod w0 n) by done.
  by apply (inverse_unique n (u0 mod n)).
Qed.

Lemma inverse_mod_involutive_witness :
  ∃ u, inverse_mod 10 7 = Val u ∧ inverse_mod u 7 = Val (10 mod 7).
Proof. apply (inverse_mod_involutive 10 7); [lia|reflexivity]. Defined.

(** X6: for n other than 0, [inverse_mod] depends on its first argument
    only through its residue: reducing a modulo n first changes neither
    the value returned nor the error raised. *)
Theorem inverse_mod_residue (a n : Z) :
  n ≠ 0 → inverse_mod (a mod n) n = inverse_mod a n.
Proof.
  intros Hn.
  assert (Hgm : Z.gcd (a mod n) n = Z.gcd a n).
  { rewrite Z.gcd_mod by done. apply Z.gcd_comm. }
  destruct (Z.eq_dec (Z.gcd a n) 1) as [Hg|Hg].
  - destruct (inverse_mod_coprime a n Hn Hg) as (u & -> & Hu).
    destruct (inverse_mod_coprime (a mod n) n Hn) as (w & -> & Hw);
      [by rewrite Hgm|].
    f_equal. rewrite <- (Z.mod_mod w n), <- (Z.mod_mod u n) by done.
    apply (inverse_unique n a); [done| |done].
    by rewrite <- Z.mul_mod_idemp_l.
  - rewrite !inverse_mod_not_coprime; [done..|by rewrite Hgm].
Qed.

Lemma inverse_mod_residue_witness : inverse_mod (29 mod 26) 26 = inverse_mod 29 26.
Proof. apply (inverse_mod_residue 29 26). lia. Defined.

(** ** resoud_equation *)

(** X7: for (a, b) other than (0, 0), [resoud_equation a b c] returns the
    empty tuple exactly when a*x + b*y = c has no integer solution. *)
Theorem resoud_equation_vide_iff (a b c : Z) :
  (a, b) ≠ (0, 0) →
  resoud_equation a b c = Val Vide ↔ ¬ ∃ x y, a * x + b * y = c.
Proof.
  intros Hab.
  assert (Hd : Z.gcd a b ≠ 0).
  { intros H0. apply Z.gcd_eq_0 in H0 as [-> ->]. done. }
  assert (Hsol : (∃ x y, a * x + b * y = c) ↔ (Z.gcd a b | c)).
  { split.
    - intros (x & y & <-).
      apply Z.divide_add_r; apply Z.divide_mul_l;
        [apply Z.gcd_divide_l|apply Z.gcd_divide_r].
    - intros [k ->]. destruct (Z.gcd_bezout a b _ eq_refl) as (u & v & Huv).
      exists (k * u), (k * v). rewrite <- Huv. ring. }
  rewrite Hsol. unfold resoud_equation. rewrite pgcd_spec. simpl.
  rewrite py_divmod_val by done. simpl.
  destruct (Z.eqb_spec (c mod Z.gcd a b) 0) as [H0|H0]; simpl.
  - apply Z.mod_divide in H0; [|done].
    rewrite !py_floordiv_val by done. simpl.
    destruct (euclide_etendu_spec (a / Z.gcd a b) (b / Z.gcd a b))
      as (u & v & -> & _). simpl. split; [done|tauto].
  - split; [|done]. intros _ Hdiv. by apply Z.mod_divide in Hdiv.
Qed.

Lemma resoud_equation_vide_iff_witness :
  resoud_equation 4 6 5 = Val Vide ↔ ¬ ∃ x y, 4 * x + 6 * y = 5.
Proof. apply (resoud_equation_vide_iff 4 6 5). discriminate. Defined.

(** X8: with a = b = 0 the gcd is 0 and the division of c by it raises
    ZeroDivisionError, whatever c. *)
Theorem resoud_equation_0_0 (c : Z) :
  resoud_equation 0 0 c = Raise ZeroDivisionError.
Proof. reflexivity. Qed.

(** ** eratosthene, plus_petit_diviseur, plus_petit_diviseur1 *)

Lemma while_exit {St : Type} (fuel : nat) (cond : St → bool)
    (body : St → outcome St) (s : St) :
  cond s = false → while (S fuel) cond body s = Val s.
Proof. intros H. simpl. by rewrite H. Qed.

Lemma eratosthene_empty (n : Z) : n < 2 → eratosthene n = Val [].
Proof.
  intros Hn. unfold eratosthene. rewrite while_exit.
  - cbn [mbind outcome_bind]. unfold restants. by rewrite seqZ_nil by lia.
  - simpl. apply Z.leb_gt. lia.
Qed.

(** X9: below 2 the sieve is empty: for n < 2, [eratosthene n] returns
    the empty list and [est_premier1 n] returns False. *)
Theorem eratosthene_below_2 (n : Z) :
  n < 2 → eratosthene n = Val [] ∧ est_premier1 n = Val false.
Proof.
  intros Hn. split; [by apply eratosthene_empty|].
  unfold est_premier1. by rewrite eratosthene_empty.
Qed.

Lemma eratosthene_below_2_witness :
  eratosthene 1 = Val [] ∧ est_premier1 1 = Val false.
Proof. apply (eratosthene_below_2 1). lia. Defined.

(** X10: for n >= 2, [plus_petit_diviseur n] returns the least divisor of
    n above 1, which is a prime, and is n itself exactly when n is prime. *)
Theorem plus_petit_diviseur_least (n : Z) :
  2 ≤ n →
  ∃ d, plus_petit_diviseur n = Val d ∧ premier d ∧ (d | n)
       ∧ (∀ e, 2 ≤ e → (e | n) → d ≤ e)
       ∧ (d = n ↔ premier n).
Proof.
  intros Hn.
  destruct (plus_petit_diviseur_spec n Hn) as (d & Hd & Hd2 & Hdn & Hmin & Hp).
  exists d. split; [done|]. split; [|done].
  apply premier_sans_diviseur. split; [done|].
  intros e He Hed. specialize (Hmin e ltac:(lia) ltac:(by etrans)). lia.
Qed.

Lemma plus_petit_diviseur_least_witness :
  ∃ d, plus_petit_diviseur 91 = Val d ∧ premier d ∧ (d | 91)
       ∧ (∀ e, 2 ≤ e → (e | 91) → d ≤ e)
       ∧ (d = 91 ↔ premier 91).
Proof. apply (plus_petit_diviseur_least 91). lia. Defined.

(** X11: for n >= 2 the plain scan and the scan bounded by the square
    root return the same divisor. *)
Theorem plus_petit_diviseur1_agrees (n : Z) :
  2 ≤ n → plus_petit_diviseur1 n = plus_petit_diviseur n.
Proof.
  intros Hn.
  destruct (plus_petit_diviseur_spec n Hn) as (d & -> & Hd2 & Hdn & Hmin & _).
  unfold plus_petit_diviseur1.
  destruct (while_total (ppd1_cond n) ppd_body
              (λ d', 2 ≤ d' ≤ d) (λ d', d + 1 - d'))
    with (fuel := S (Z.to_nat (Z.abs n))) (s := 2)
    as (d' & -> & Hd' & Hc).
  - intros e He Hc. unfold ppd1_cond in Hc.
    apply negb_true_iff, Z.eqb_neq in Hc.
    eexists; split; [done|].
    assert (e ≠ d).
    { intros ->. apply Hc. apply Z.mod_divide; [lia|done]. }
    lia.
  - lia.
  - assert (d ≤ n) by (apply Z.divide_pos_le; [lia|done]). lia.
  - lia.
  - f_equal. unfold ppd1_cond in Hc. apply negb_false_iff, Z.eqb_eq in Hc.
    apply Z.mod_divide in Hc; [|lia].
    specialize (Hmin d' ltac:(lia) Hc). lia.
Qed.

Lemma plus_petit_diviseur1_agrees_witness :
  plus_petit_diviseur1 35 = plus_petit_diviseur 35.
Proof. apply (plus_petit_diviseur1_agrees 35). lia. Defined.

(** X12: outside their domain the two primality tests part: for n < 2 the
    bounded scan stops at once and [est_premier2 n] returns True, while
    [est_premier1 n] returns False. *)
Theorem est_premier2_below_2 (n : Z) :
  n < 2 → est_premier2 n = Val true ∧ est_premier1 n ≠ est_premier2 n.
Proof.
  intros Hn.
  assert (He : est_premier2 n = Val true).
  { unfold est_premier2, plus_petit_diviseur. rewrite while_exit.
    - cbn [mbind outcome_bind]. destruct (Z.leb_spec (2 * 2) n); [lia|].
      cbn [mbind outcome_bind]. by rewrite Z.eqb_refl.
    - unfold ppd_cond. destruct (Z.leb_spec (2 * 2) n); [lia|done]. }
  split; [done|]. rewrite He.
  unfold est_premier1. by rewrite eratosthene_empty.
Qed.

Lemma est_premier2_below_2_witness :
  est_premier2 1 = Val true ∧ est_premier1 1 ≠ est_premier2 1.
Proof. apply (est_premier2_below_2 1). lia. Defined.

(** ** factorise *)

Lemma premier_Zprime (p : Z) : premier p ↔ Z.prime p.
Proof.
  rewrite premier_sans_diviseur. unfold Z.prime.
  split; intros [Hp H]; (split; [lia|]); intros d Hd; apply H; lia.
Qed.

Lemma produit_app (l1 l2 : list (Z * Z)) :
  produit (l1 ++ l2) = produit l1 * produit l2.
Proof.
  unfold produit. induction l1 as [|pa l1 IH]; simpl in *; [lia|].
  rewrite IH. ring.
Qed.

Lemma pow_divide_le (p a b : Z) : 0 ≤ a ≤ b → (p ^ a | p ^ b).
Proof.
  intros H. exists (p ^ (b - a)). rewrite <- Z.pow_add_r by lia.
  f_equal. lia.
Qed.

Lemma premier_divise_produit (q : Z) (l : list (Z * Z)) :
  premier q → Forall (λ pa, premier pa.1 ∧ 1 ≤ pa.2) l →
  (q | produit l) → ∃ alpha, (q, alpha) ∈ l.
Proof.
  intros Hq Hl. induction Hl as [|[p a] l [Hp Ha] Hl IH]; intros Hdiv.
  - destruct Hq as [Hq _]. apply Z.divide_1_r_nonneg in Hdiv; lia.
  - change (q | p ^ a * produit l) in Hdiv. simpl in *.
    apply Z.divide_prime_mul in Hdiv as [Hd|Hd]; [| |by apply premier_Zprime].
    + apply Z.divide_prime_pp in Hd as ->;
        [|by apply premier_Zprime..|lia].
      exists a. left.
    + destruct (IH Hd) as [alpha Hin]. exists alpha. by right.
Qed.

(** In a well-formed factor list each prime occurs to its exact power. *)
Lemma facteurs_exact_power (l : list (Z * Z)) (p alpha : Z) :
  Forall (λ pa, premier pa.1 ∧ 1 ≤ pa.2) l →
  StronglySorted (λ x y, x.1 < y.1) l →
  (p, alpha) ∈ l →
  ∃ R, produit l = p ^ alpha * R ∧ ¬ (p | R).
Proof.
  intros Hl Hs Hin.
  destruct (list_elem_of_split _ _ Hin) as (l1 & l2 & ->).
  apply Forall_app in Hl as [Hl1 Hl2].
  apply Forall_cons in Hl2 as [[Hp Ha] Hl2]. simpl in *.
  apply StronglySorted_app in Hs as (Hlt & _ & Hs2).
  apply StronglySorted_inv in Hs2 as [_ Hgt].
  exists (produit l1 * produit l2). split.
  - rewrite produit_app. change (produit ((p, alpha) :: l2))
      with (p ^ alpha * produit l2). ring.
  - intros Hdiv.
    apply Z.divide_prime_mul in Hdiv as [Hd|Hd]; [| |by apply premier_Zprime].
    + destruct (premier_divise_produit p l1 Hp Hl1 Hd) as [b Hb].
      specialize (Hlt _ (p, alpha) Hb ltac:(left)). simpl in Hlt. lia.
    + destruct (premier_divise_produit p l2 Hp Hl2 Hd) as [b Hb].
      rewrite Forall_forall in Hgt. specialize (Hgt _ Hb). simpl in Hgt. lia.
Qed.

Lemma facteurs_exact (l : list (Z * Z)) (p alpha : Z) :
  Forall (λ pa, premier pa.1 ∧ 1 ≤ pa.2) l →
  StronglySorted (λ x y, x.1 < y.1) l →
  (p, alpha) ∈ l ↔
  premier p ∧ 1 ≤ alpha ∧ (p ^ alpha | produit l)
  ∧ ¬ (p ^ (alpha + 1) | produit l).
Proof.
  intros Hl Hs.
  assert (Hfwd : ∀ a, (p, a) ∈ l →
            premier p ∧ 1 ≤ a ∧ (p ^ a | produit l)
            ∧ ¬ (p ^ (a + 1) | produit l)).
  { intros a Hin. rewrite Forall_forall in Hl.
    destruct (Hl _ Hin) as [Hp Ha]. simpl in *.
    destruct (facteurs_exact_power l p a ltac:(by apply Forall_forall) Hs Hin)
      as (R & -> & HR).
    split; [done|]. split; [done|]. split; [by apply Z.divide_factor_l|].
    rewrite Z.pow_add_r, Z.pow_1_r by lia.
    rewrite Z.mul_divide_cancel_l; [done|].
    destruct Hp as [Hp _]. apply Z.pow_nonzero; lia. }
  split; [apply Hfwd|].
  intros (Hp & Ha & Hdiv & Hndiv).
  destruct (premier_divise_produit p l Hp Hl) as [b Hb].
  { etrans; [|exact Hdiv]. by apply Z.divide_pow_same_r. }
  destruct (Hfwd b Hb) as (_ & Hb1 & Hbdiv & Hbndiv).
  destruct (Z.lt_trichotomy alpha b) as [Hlt|[->|Hgt]]; [|done|].
  - destruct Hndiv. etrans; [|exact Hbdiv]. apply pow_divide_le. lia.
  - destruct Hbndiv. etrans; [|exact Hdiv]. apply pow_divide_le. lia.
Qed.

Lemma factorise_result (n : Z) :
  1 ≤ n →
  ∃ l, factorise n = Val l
       ∧ Forall (λ pa, premier pa.1 ∧ 1 ≤ pa.2) l
       ∧ StronglySorted (λ x y, x.1 < y.1) l
       ∧ produit l = n.
Proof.
  intros Hn. unfold factorise.
  destruct (factorise_loop_total n (S (2 * Z.to_nat n)) Hn ltac:(lia))
    as (s & -> & (Hm & Hp & Ha & Hprod & Hno & Hprem & Hok) & H1).
  simpl. destruct (flush_ok _ _ _ Hok Ha Hprem) as [[Hs Hf] Hpr].
  eexists; split; [done|]. split; [|split; [done|]].
  - eapply Forall_impl; [exact Hf|]. simpl. tauto.
  - rewrite Hpr. rewrite Hprod, H1. lia.
Qed.

(** X13: for n >= 1 the pairs of [factorise n] are exactly the pairs
    (p, alpha) with p a prime and alpha >= 1 the greatest exponent such
    that p^alpha divides n: every prime divisor of n is listed, with its
    exact multiplicity. *)
Theorem factorise_exponents (n : Z) :
  1 ≤ n →
  ∃ l, factorise n = Val l
       ∧ ∀ p alpha, (p, alpha) ∈ l ↔
           premier p ∧ 1 ≤ alpha ∧ (p ^ alpha | n) ∧ ¬ (p ^ (alpha + 1) | n).
Proof.
  intros Hn. destruct (factorise_result n Hn) as (l & Hl & Hf & Hs & Hprod).
  exists l. split; [done|]. intros p alpha. rewrite <- Hprod.
  by apply facteurs_exact.
Qed.

Lemma factorise_exponents_witness :
  ∃ l, factorise 504 = Val l
       ∧ ∀ p alpha, (p, alpha) ∈ l ↔
           premier p ∧ 1 ≤ alpha ∧ (p ^ alpha | 504)
           ∧ ¬ (p ^ (alpha + 1) | 504).
Proof. apply (factorise_exponents 504). lia. Defined.

Lemma factorise_loop_diverges (n : Z) (fuel : nat) :
  n ≤ 0 →
  while fuel factorise_cond factorise_body (factorise_init n) = Timeout.
Proof.
  intros Hn.
  apply (while_diverges _ _ (λ s, f_m s ≤ 0 ∧ 2 ≤ f_p s)); [|simpl; lia].
  intros [m p alpha facteurs] [Hm Hp]; simpl in *. split.
  - unfold factorise_cond; simpl. destruct (Z.eqb_spec m 1); [lia|done].
  - unfold factorise_body; simpl. rewrite py_mod_val by lia. simpl.
    destruct (m mod p =? 0).
    + rewrite py_floordiv_val by lia. simpl. eexists; split; [done|]. simpl.
      split; [|done]. apply Z.div_le_upper_bound; lia.
    + eexists; split; [done|]. simpl. lia.
Qed.

(** X14: for n <= 0 the loop of [factorise] never exits, whatever the
    budget of iterations: m stays at most 0 and never becomes 1, so no
    list is returned. *)
Theorem factorise_diverges (n : Z) :
  n ≤ 0 →
  (∀ fuel, while fuel factorise_cond factorise_body (factorise_init n)
           = Timeout)
  ∧ factorise n = Timeout.
Proof.
  intros Hn. split.
  - intros fuel. by apply factorise_loop_diverges.
  - unfold factorise. by rewrite factorise_loop_diverges.
Qed.

Lemma factorise_diverges_witness :
  (∀ fuel, while fuel factorise_cond factorise_body (factorise_init 0)
           = Timeout)
  ∧ factorise 0 = Timeout.
Proof. apply (factorise_diverges 0). lia. Defined.

(** ** expo_mod_rapide *)

(** X15: for b >= 0 and n > 0, apart from the single case b = 0 with
    n = 1, [expo_mod_rapide a b n] returns a^b mod n, a value of [0, n). *)
Theorem expo_mod_rapide_correct (a b n : Z) :
  0 ≤ b → 0 < n → 0 < b ∨ 1 < n →
  ∃ r, expo_mod_rapide a b n = Val r ∧ r = a ^ b mod n ∧ 0 ≤ r < n.
Proof.
  intros Hb Hn Hor. exists (a ^ b mod n).
  split; [by apply expo_mod_rapide_spec|]. split; [done|].
  by apply Z.mod_pos_bound.
Qed.

Lemma expo_mod_rapide_correct_witness :
  ∃ r, expo_mod_rapide 2 10 100 = Val r ∧ r = 2 ^ 10 mod 100 ∧ 0 ≤ r < 100.
Proof. apply (expo_mod_rapide_correct 2 10 100); lia. Defined.

(** X16: with a zero modulus and an exponent other than 0 the first
    reduction raises ZeroDivisionError. *)
Theorem expo_mod_rapide_zero_modulus (a b : Z) :
  b ≠ 0 → expo_mod_rapide a b 0 = Raise ZeroDivisionError.
Proof.
  intros Hb. unfold expo_mod_rapide.
  replace (Z.to_nat (Z.log2 b) + 2)%nat
    with (S (S (Z.to_nat (Z.log2 b)))) by lia.
  cbn [while]. unfold expo_cond.
  destruct (Z.eqb_spec b 0) as [|_]; [done|]. simpl.
  by destruct (b mod 2 =? 1).
Qed.

Lemma expo_mod_rapide_zero_modulus_witness :
  expo_mod_rapide 3 5 0 = Raise ZeroDivisionError.
Proof. apply (expo_mod_rapide_zero_modulus 3 5). lia. Defined.

Lemma expo_loop_diverges (a b n : Z) (fuel : nat) :
  b < 0 → n ≠ 0 →
  while fuel expo_cond (expo_body n) (1, a, b) = Timeout.
Proof.
  intros Hb Hn.
  apply (while_diverges _ _ (λ st, st.2 < 0)); [|done].
  intros [[r s] k] Hk; simpl in *. split.
  - destruct (Z.eqb_spec k 0); [lia|done].
  - rewrite !py_mod_val by done.
    exists (if k mod 2 =? 1 then (r * s) mod n else r, (s * s) mod n, k / 2).
    split; [by destruct (k mod 2 =? 1)|]. simpl.
    apply Z.div_lt_upper_bound; lia.
Qed.

(** X17: with a negative exponent and a modulus other than 0 the loop
    never exits: halving with floor division keeps k negative. *)
Theorem expo_mod_rapide_negative_exponent (a b n : Z) :
  b < 0 → n ≠ 0 →
  (∀ fuel, while fuel expo_cond (expo_body n) (1, a, b) = Timeout)
  ∧ expo_mod_rapide a b n = Timeout.
Proof.
  intros Hb Hn. split.
  - intros fuel. by apply expo_loop_diverges.
  - unfold expo_mod_rapide. by rewrite expo_loop_diverges.
Qed.

Lemma expo_mod_rapide_negative_exponent_witness :
  (∀ fuel, while fuel expo_cond (expo_body 7) (1, 2, -1) = Timeout)
  ∧ expo_mod_rapide 2 (-1) 7 = Timeout.
Proof. apply (expo_mod_rapide_negative_exponent 2 (-1) 7); lia. Defined.

(** ** est_temoin_non_primalite, est_premier_probable_fermat *)

(** X18: for n > 1, [est_temoin_non_primalite a n] returns True exactly
    when gcd(a, n) = 1 and a^(n-1) mod n is not 1. *)
Theorem est_temoin_non_primalite_iff (a n : Z) :
  1 < n →
  ∃ t, est_temoin_non_primalite a n = Val t
       ∧ (t = true ↔ Z.gcd a n = 1 ∧ a ^ (n - 1) mod n ≠ 1).
Proof.
  intros Hn. rewrite est_temoin_non_primalite_spec by done.
  eexists; split; [done|]. by rewrite bool_decide_eq_true.
Qed.

Lemma est_temoin_non_primalite_iff_witness :
  ∃ t, est_temoin_non_primalite 2 91 = Val t
       ∧ (t = true ↔ Z.gcd 2 91 = 1 ∧ 2 ^ (91 - 1) mod 91 ≠ 1).
Proof. apply (est_temoin_non_primalite_iff 2 91). lia. Defined.

(** X19: for n > 1 the answer depends on the base only through its
    residue modulo n, and the bases congruent to 0 or to 1 are never
    witnesses. *)
Theorem est_temoin_non_primalite_residue (a n : Z) :
  1 < n →
  est_temoin_non_primalite (a mod n) n = est_temoin_non_primalite a n
  ∧ (a mod n = 0 ∨ a mod n = 1 → est_temoin_non_primalite a n = Val false).
Proof.
  intros Hn. rewrite !est_temoin_non_primalite_spec by done.
  assert (Hiff : temoin_fermat (a mod n) n ↔ temoin_fermat a n).
  { unfold temoin_fermat.
    rewrite Z.gcd_mod, (Z.gcd_comm n a), Z.mod_pow_l by lia. done. }
  split; [f_equal; by apply bool_decide_ext|].
  intros Hr. f_equal. apply bool_decide_eq_false. rewrite <- Hiff.
  unfold temoin_fermat. destruct Hr as [-> | ->].
  - rewrite Z.gcd_0_l. intros [? _]. lia.
  - rewrite Z.pow_1_l, Z.mod_1_l by lia. tauto.
Qed.

Lemma est_temoin_non_primalite_residue_witness :
  est_temoin_non_primalite (93 mod 91) 91 = est_temoin_non_primalite 93 91
  ∧ (93 mod 91 = 0 ∨ 93 mod 91 = 1 →
     est_temoin_non_primalite 93 91 = Val false).
Proof. apply (est_temoin_non_primalite_residue 93 91). lia. Defined.

(** X20: with no attempt to make (nbtentatives <= 0) the generator is
    empty, the name [randrange] is never evaluated, and the answer is
    True for every n. *)
Theorem est_premier_probable_fermat_zero_attempt (tirages : nat → Z)
    (n nbtentatives : Z) :
  nbtentatives ≤ 0 →
  est_premier_probable_fermat tirages n nbtentatives = Val true.
Proof.
  intros Hnb.
  unfold est_premier_probable_fermat, est_premier_probable_fermat_avec.
  replace (Z.to_nat nbtentatives) with 0%nat by lia. reflexivity.
Qed.

Lemma est_premier_probable_fermat_zero_attempt_witness :
  est_premier_probable_fermat (λ _, 2) 15 0 = Val true.
Proof. apply (est_premier_probable_fermat_zero_attempt (λ _, 2) 15 0). lia. Defined.

(** ** est_carmichael *)

Lemma all_korselt_spec (n : Z) (fact : list (Z * Z)) :
  Forall (λ pa, premier pa.1 ∧ 1 ≤ pa.2) fact →
  ∃ b, all_korselt n fact = Val b
       ∧ (b = true ↔ Forall (λ pa, (pa.1 - 1 | n - 1)) fact).
Proof.
  induction 1 as [|[p a] l [[Hp _] _] Hl (b & IH & Hb)]; simpl in *.
  - exists true. split; [done|]. split; [constructor|done].
  - rewrite py_mod_val by lia. simpl.
    destruct (Z.eqb_spec ((n - 1) mod (p - 1)) 0) as [H0|H0].
    + apply Z.mod_divide in H0; [|lia].
      exists b. split; [done|]. rewrite Hb, Forall_cons. simpl. tauto.
    + exists false. split; [done|]. split; [done|].
      intros [Hdiv _]%Forall_cons. simpl in Hdiv.
      destruct H0. apply Z.mod_divide; [lia|done].
Qed.

Lemma est_carmichael_list (n : Z) :
  1 ≤ n →
  ∃ l b, factorise n = Val l ∧ est_carmichael n = Val b
    ∧ (b = true ↔ (1 < length l)%nat ∧ Forall (λ pa, pa.2 = 1) l
                   ∧ Forall (λ pa, (pa.1 - 1 | n - 1)) l).
Proof.
  intros Hn. destruct (factorise_result n Hn) as (l & Hl & Hf & _).
  unfold est_carmichael. rewrite Hl. cbn [mbind outcome_bind].
  assert (Hall : forallb (λ pa : Z * Z, pa.2 =? 1) l = true
                 ↔ Forall (λ pa, pa.2 = 1) l).
  { rewrite forallb_forall, Forall_forall.
    split; intros H x Hx.
    - apply Z.eqb_eq, H. by apply list_elem_of_In.
    - apply Z.eqb_eq, H. by apply list_elem_of_In. }
  destruct (all_korselt_spec n l Hf) as (b & Hk & Hb).
  destruct (Z.ltb_spec 1 (Z.of_nat (length l))) as [Hlen|Hlen];
    destruct (forallb (λ pa : Z * Z, pa.2 =? 1) l) eqn:Hfb; simpl.
  - exists l, b. split; [done|]. split; [done|]. rewrite Hb.
    split; [intros ?; split; [lia|split; [by apply Hall|done]]|tauto].
  - exists l, false. split; [done|]. split; [done|]. split; [done|].
    intros (_ & H1 & _). apply Hall in H1. done.
  - exists l, false. split; [done|]. split; [done|]. split; [done|]. lia.
  - exists l, false. split; [done|]. split; [done|]. split; [done|]. lia.
Qed.

(** X21: Korselt's criterion: for n >= 1, [est_carmichael n] returns True
    exactly when n has two distinct prime divisors and every prime
    divisor p of n satisfies: p*p does not divide n, and p - 1 divides
    n - 1. *)
Theorem est_carmichael_korselt (n : Z) :
  1 ≤ n →
  ∃ b, est_carmichael n = Val b
    ∧ (b = true ↔
       (∃ p q, premier p ∧ premier q ∧ p ≠ q ∧ (p | n) ∧ (q | n))
       ∧ ∀ p, premier p → (p | n) → ¬ (p * p | n) ∧ (p - 1 | n - 1)).
Proof.
  intros Hn. destruct (factorise_result n Hn) as (l & Hl & Hf & Hs & Hprod).
  destruct (est_carmichael_list n Hn) as (l' & b & Hl' & Hb & Hiff).
  rewrite Hl in Hl'. injection Hl' as <-.
  exists b. split; [done|]. rewrite Hiff. clear Hiff Hb.
  assert (Hex : ∀ p a, (p, a) ∈ l ↔
            premier p ∧ 1 ≤ a ∧ (p ^ a | n) ∧ ¬ (p ^ (a + 1) | n)).
  { intros p a. rewrite <- Hprod. by apply facteurs_exact. }
  assert (Hin : ∀ p, premier p → (p | n) → ∃ a, (p, a) ∈ l).
  { intros p Hp Hdiv. apply premier_divise_produit; [done..|by rewrite Hprod]. }
  assert (Hdiv : ∀ p a, (p, a) ∈ l → premier p ∧ (p | n)).
  { intros p a (Hp & Ha & Hd & _)%Hex. split; [done|].
    etrans; [|exact Hd]. by apply Z.divide_pow_same_r. }
  split.
  - intros (Hlen & H1 & Hk). split.
    + destruct l as [|[p a] [|[q c] l]]; simpl in Hlen; [lia..|].
      exists p, q.
      destruct (Hdiv p a ltac:(left)) as [? ?].
      destruct (Hdiv q c ltac:(right; left)) as [? ?].
      apply StronglySorted_inv in Hs as [_ Hlt].
      apply Forall_cons in Hlt as [Hlt _]. simpl in Hlt.
      repeat (split; [done || lia|]). done.
    + intros p Hp Hpn. destruct (Hin p Hp Hpn) as [a Ha].
      rewrite Forall_forall in H1, Hk.
      pose proof (H1 _ Ha) as Ha1. pose proof (Hk _ Ha) as Hpk.
      simpl in *. subst a. split; [|done].
      apply Hex in Ha as (_ & _ & _ & Hnd).
      by rewrite <- Z.pow_2_r.
  - intros [(p & q & Hp & Hq & Hne & Hpn & Hqn) Hall].
    split; [|split].
    + destruct (Hin p Hp Hpn) as [a Ha]. destruct (Hin q Hq Hqn) as [c Hc].
      destruct l as [|x [|y l]]; simpl; [|exfalso|lia].
      * by apply elem_of_nil in Ha.
      * apply list_elem_of_singleton in Ha, Hc. congruence.
    + apply Forall_forall. intros [p' a] Ha. simpl.
      pose proof (Hdiv _ _ Ha) as [Hp' Hpn'].
      destruct (Hall p' Hp' Hpn') as [Hsq _].
      apply Hex in Ha as (_ & Ha1 & Hd & _).
      destruct (Z.eq_dec a 1); [done|]. destruct Hsq.
      etrans; [|exact Hd]. rewrite <- Z.pow_2_r. apply pow_divide_le. lia.
    + apply Forall_forall. intros [p' a] Ha. simpl.
      pose proof (Hdiv _ _ Ha) as [Hp' Hpn'].
      by destruct (Hall p' Hp' Hpn') as [_ ?].
Qed.

Lemma est_carmichael_korselt_witness :
  ∃ b, est_carmichael 561 = Val b
    ∧ (b = true ↔
       (∃ p q, premier p ∧ premier q ∧ p ≠ q ∧ (p | 561) ∧ (q | 561))
       ∧ ∀ p, premier p → (p | 561) → ¬ (p * p | 561) ∧ (p - 1 | 561 - 1)).
Proof. apply (est_carmichael_korselt 561). lia. Defined.

(** X22: the docstring's examples: 561 is the least integer n >= 1 for
    which [est_carmichael] returns True. *)
Theorem est_carmichael_least_561 :
  est_carmichael 561 = Val true
  ∧ ∀ k, 1 ≤ k < 561 → est_carmichael k = Val false.
Proof.
  split; [by vm_compute|].
  assert (H : forallb (λ k, match est_carmichael k with
                            | Val false => true
                            | _ => false
                            end) (seqZ 1 560) = true) by (by vm_compute).
  intros k Hk. rewrite forallb_forall in H.
  specialize (H k). rewrite <- list_elem_of_In, elem_of_seqZ in H.
  specialize (H ltac:(lia)).
  by destruct (est_carmichael k) as [[]| |].
Qed.

Lemma est_carmichael_least_561_witness : est_carmichael 15 = Val false.
Proof. apply est_carmichael_least_561. lia. Defined.
